(** * The shape generator: path-generation dispatcher, undo history and
    shape defaults

    A shallow embedding of

    - [utils/workers/math.worker.ts]: the message handler that runs inside
      the Web Worker ([worker_onmessage]);
    - the worker client (module variables [requestIdCounter],
      [pendingRequests], [worker]; [initWorker], [generatePathAsync],
      [generatePerCornerPathAsync], [generatePathSync],
      [generatePerCornerPathSync], [terminateWorker]);
    - [hooks/useHistory]: the undo and redo stacks ([History]);
    - [utils/shapeDefaults]: [DEFAULT_SHAPE_CONTENT], [createShapeContent],
      [isValidShapeContent].

    The host runtime the client talks to (timers, promises, the worker's
    mailbox, the console) is state of the model; what the host decides
    (whether [new Worker] or [postMessage] throws, the value of
    [Date.now()], when timers fire and messages arrive) is carried by the
    events of the transition system. The curve generators of [utils/math]
    are parameters of the development. *)

From Stdlib Require Import ZArith NArith Floats Ascii.
From stdpp Require Import base tactics option list strings pretty gmap.



(** ** JavaScript values *)

(** A JavaScript [number] is an IEEE 754 binary64 value. *)
Abbreviation number := float.

(** What a [throw] carries: an [Error] object with its [message], or any
    other value. *)
Inductive Thrown : Type :=
  | ErrorObject (message : string)
  | OtherValue.

(** The completion of a call. *)
Inductive Completion (A : Type) : Type :=
  | Normal (a : A)
  | Throws (x : Thrown).
Arguments Normal {A} a.
Arguments Throws {A} x.

(** [types/layers]: [CornerExponents]. *)
Record CornerExponents : Type := {
  topLeft : number;
  topRight : number;
  bottomRight : number;
  bottomLeft : number
}.

(** ** [Map]: keys in insertion order *)

Module JsMap.
Section Ops.
Context {V : Type}.
Implicit Types (k : string) (v : V) (m : list (string * V)).

Fixpoint get k m : option V :=
  match m with
  | [] => None
  | (k', v) :: m' => if decide (k' = k) then Some v else get k m'
  end.

(** [set] keeps the position of a key that is already present and
    appends a new key at the end. *)
Fixpoint set k v m : list (string * V) :=
  match m with
  | [] => [(k, v)]
  | (k', v') :: m' =>
      if decide (k' = k) then (k, v) :: m' else (k', v') :: set k v m'
  end.

Fixpoint delete k m : list (string * V) :=
  match m with
  | [] => []
  | (k', v') :: m' =>
      if decide (k' = k) then m' else (k', v') :: delete k m'
  end.

Definition clear m : list (string * V) := [].

Definition keys m : list string := m.*1.
Definition values m : list V := m.*2.

(** [forEach f m s]: run [f] on every value, in insertion order. *)
Definition forEach {S : Type} (f : V → S → S) m (s : S) : S :=
  foldl (λ acc kv, f kv.2 acc) s m.

Lemma get_set_eq k v m : get k (set k v m) = Some v.
Proof.
  induction m as [|[k' v'] m IH]; simpl; repeat case_decide; simpl;
    repeat case_decide; congruence.
Qed.

Lemma get_set_ne k k' v m : k ≠ k' → get k' (set k v m) = get k' m.
Proof.
  intros Hne. induction m as [|[k0 v0] m IH]; simpl; repeat case_decide;
    simpl; repeat case_decide; congruence.
Qed.

Lemma get_delete_ne k k' m : k ≠ k' → get k' (delete k m) = get k' m.
Proof.
  intros Hne. induction m as [|[k0 v0] m IH]; simpl; repeat case_decide;
    simpl; repeat case_decide; congruence.
Qed.

Lemma get_None_keys k m : get k m = None ↔ k ∉ keys m.
Proof.
  unfold keys. induction m as [|[k0 v0] m IH]; simpl.
  - split; [intros _; apply not_elem_of_nil | done].
  - rewrite not_elem_of_cons. case_decide; subst.
    + split; [done | intros [? _]; done].
    + rewrite IH. naive_solver.
Qed.

Lemma get_Some_elem k v m : get k m = Some v → (k, v) ∈ m.
Proof.
  induction m as [|[k0 v0] m IH]; simpl; [done|].
  case_decide; subst.
  - intros [= ->]. apply list_elem_of_here.
  - intros ?. apply list_elem_of_further. auto.
Qed.

Lemma elem_get k v m : NoDup (keys m) → (k, v) ∈ m → get k m = Some v.
Proof.
  unfold keys. induction m as [|[k0 v0] m IH]; simpl.
  - intros _ H. by apply elem_of_nil in H.
  - rewrite NoDup_cons. intros [Hk0 Hnd] [[= <- <-] | Hin]%elem_of_cons.
    + by rewrite decide_True.
    + case_decide; subst.
      * exfalso. apply Hk0. apply list_elem_of_fmap. by exists (k, v).
      * auto.
Qed.

Lemma get_delete_eq k m : NoDup (keys m) → get k (delete k m) = None.
Proof.
  unfold keys. induction m as [|[k0 v0] m IH]; simpl; [done|].
  rewrite NoDup_cons. intros [Hk0 Hnd]. case_decide; subst.
  - by apply get_None_keys.
  - simpl. rewrite decide_False by done. auto.
Qed.

Lemma keys_delete_subseteq k m : keys (delete k m) ⊆ keys m.
Proof.
  unfold keys. induction m as [|[k0 v0] m IH]; simpl; [done|].
  case_decide; simpl; set_solver.
Qed.

Lemma elem_delete k kv m : kv ∈ delete k m → kv ∈ m.
Proof.
  induction m as [|[k0 v0] m IH]; simpl; [done|].
  case_decide; simpl; set_solver.
Qed.

Lemma NoDup_keys_delete k m : NoDup (keys m) → NoDup (keys (delete k m)).
Proof.
  unfold keys. induction m as [|[k0 v0] m IH]; simpl; [done|].
  rewrite NoDup_cons. intros [Hk0 Hnd]. case_decide; simpl; [done|].
  apply NoDup_cons. split; [|auto].
  intros Hin. apply Hk0. by apply (keys_delete_subseteq k).
Qed.

Lemma keys_set k v m :
  keys (set k v m) = if decide (k ∈ keys m) then keys m else keys m ++ [k].
Proof.
  unfold keys. induction m as [|[k0 v0] m IH]; csimpl.
  - destruct (decide (k ∈ [])); [set_solver | done].
  - destruct (decide (k0 = k)); subst; csimpl.
    + destruct (decide (k ∈ k :: m.*1)); [done | set_solver].
    + rewrite IH.
      destruct (decide (k ∈ m.*1)), (decide (k ∈ k0 :: m.*1)); set_solver.
Qed.

Lemma NoDup_keys_set k v m : NoDup (keys m) → NoDup (keys (set k v m)).
Proof.
  intros Hnd. rewrite keys_set. case_decide; [done|].
  apply NoDup_app. split_and!; [done | | ].
  - intros x Hx ->%list_elem_of_singleton. done.
  - repeat constructor. apply not_elem_of_nil.
Qed.

Lemma elem_set kv k v m : kv ∈ set k v m → kv = (k, v) ∨ kv ∈ m.
Proof.
  induction m as [|[k0 v0] m IH]; simpl.
  - intros ->%list_elem_of_singleton. by left.
  - case_decide; subst.
    + intros [->|?]%elem_of_cons; [by left|].
      right. by apply list_elem_of_further.
    + intros [->|?]%elem_of_cons; [right; apply list_elem_of_here|].
      destruct IH as [?|?]; [done | by left |].
      right. by apply list_elem_of_further.
Qed.

Lemma delete_sublist k m : delete k m `sublist_of` m.
Proof.
  induction m as [|[k0 v0] m IH]; simpl; [done|].
  case_decide; [by apply sublist_cons | by apply sublist_skip].
Qed.

Lemma set_perm k v m : set k v m ≡ₚ (k, v) :: delete k m.
Proof.
  induction m as [|[k0 v0] m IH]; simpl; [done|].
  case_decide; subst; [done|]. rewrite IH. apply Permutation_swap.
Qed.

Lemma get_perm_delete k v m : get k m = Some v → m ≡ₚ (k, v) :: delete k m.
Proof.
  induction m as [|[k0 v0] m IH]; simpl; [done|].
  case_decide; subst.
  - by intros [= ->].
  - intros Hg. rewrite (IH Hg) at 1. apply Permutation_swap.
Qed.

Lemma elem_delete_ne k k' v m :
  NoDup (keys m) → (k', v) ∈ delete k m → k' ≠ k.
Proof.
  intros Hnd Hin ->. apply (get_delete_eq k) in Hnd.
  apply get_None_keys in Hnd. apply Hnd. unfold keys.
  apply list_elem_of_fmap. by exists (k, v).
Qed.


Lemma get_delete k k' m :
  NoDup (keys m) →
  get k' (delete k m) = if decide (k = k') then None else get k' m.
Proof.
  intros. case_decide; subst; [by apply get_delete_eq | by apply get_delete_ne].
Qed.
End Ops.
End JsMap.

(** ** [Array.prototype.slice] *)

(** [slice(start, end)] for integer arguments; [end_ = None] stands for an
    omitted [end]. A negative index counts from the end of the array. *)
Definition relative_index (len i : Z) : Z :=
  if (i <? 0)%Z then Z.max (len + i) 0 else Z.min i len.

Definition slice {T : Type} (start : Z) (end_ : option Z) (l : list T)
    : list T :=
  let len := Z.of_nat (length l) in
  let k := relative_index len start in
  let final := from_option (relative_index len) len end_ in
  take (Z.to_nat (final - k)) (drop (Z.to_nat k) l).

(** ** [hooks/useHistory]: the undo/redo stacks *)

(** The three pieces of state of the hook, and what each callback makes
    of them when it is called on the latest render and React runs each
    state updater once. [maxHistory] is an integer. *)
Module History.
Section Hook.
Context {T : Type}.

Record HistoryState : Type := {
  past : list T;
  present : T;
  future : list T
}.

Definition initial (initialState : T) : HistoryState :=
  {| past := []; present := initialState; future := [] |}.

Definition pushState (maxHistory : Z) (newState : T) (h : HistoryState)
    : HistoryState :=
  let newPast := past h ++ [present h] in
  {| past :=
       if (maxHistory <? Z.of_nat (length newPast))%Z
       then slice (- maxHistory) None newPast
       else newPast;
     present := newState;
     future := [] |}.

Definition undo (h : HistoryState) : HistoryState :=
  if decide (length (past h) = 0) then h
  else
    match past h !! (length (past h) - 1) with
    | Some newPresent =>
        {| past := slice 0 (Some (-1)%Z) (past h);
           present := newPresent;
           future := present h :: future h |}
    | None => h
    end.

Definition redo (h : HistoryState) : HistoryState :=
  if decide (length (future h) = 0) then h
  else
    match future h !! 0 with
    | Some newPresent =>
        {| past := past h ++ [present h];
           present := newPresent;
           future := slice 1 None (future h) |}
    | None => h
    end.

Definition clearHistory (h : HistoryState) : HistoryState :=
  {| past := []; present := present h; future := [] |}.

Definition resetHistory (state : T) (h : HistoryState) : HistoryState :=
  {| past := []; present := state; future := [] |}.

Definition setState (state : T) (h : HistoryState) : HistoryState :=
  {| past := past h; present := state; future := future h |}.

Definition canUndo (h : HistoryState) : bool :=
  bool_decide (0 < length (past h)).

Definition canRedo (h : HistoryState) : bool :=
  bool_decide (0 < length (future h)).

(** The calls a component can make on the hook. *)
Inductive Call : Type :=
  | PushState (newState : T)
  | Undo
  | Redo
  | ClearHistory
  | ResetHistory (state : T)
  | SetState (state : T).

Definition call (maxHistory : Z) (c : Call) (h : HistoryState)
    : HistoryState :=
  match c with
  | PushState newState => pushState maxHistory newState h
  | Undo => undo h
  | Redo => redo h
  | ClearHistory => clearHistory h
  | ResetHistory state => resetHistory state h
  | SetState state => setState state h
  end.

Definition calls (maxHistory : Z) (cs : list Call) (h : HistoryState)
    : HistoryState :=
  foldl (λ h c, call maxHistory c h) h cs.
End Hook.
Arguments HistoryState : clear implicits.
Arguments Call : clear implicits.
End History.

(** [useHistoryKeyboardShortcuts]: the [keydown] listener. What it does
    to an event is the list of its calls, in order. *)
Record KeyboardEvent : Type := {
  ctrlKey : bool;
  metaKey : bool;
  shiftKey : bool;
  key : string
}.

Inductive ShortcutEffect : Type :=
  | PreventDefault
  | OnUndo
  | OnRedo.

Definition handleKeyDown (e : KeyboardEvent) : list ShortcutEffect :=
  (if (ctrlKey e || metaKey e) && bool_decide (key e = "z")
      && negb (shiftKey e)
   then [PreventDefault; OnUndo] else [])
  ++ (if (ctrlKey e || metaKey e) && bool_decide (key e = "z") && shiftKey e
      then [PreventDefault; OnRedo] else [])
  ++ (if (ctrlKey e || metaKey e) && bool_decide (key e = "y")
         && negb (shiftKey e)
      then [PreventDefault; OnRedo] else []).

(** ** [utils/shapeDefaults] *)

(** JavaScript values as far as shape contents need them. An object is
    the list of its own properties in creation order; its property names
    are not array indices. *)
#[warnings="-register-all"]
Inductive JsValue : Type :=
  | VUndefined
  | VNull
  | VBool (b : bool)
  | VNumber (x : number)
  | VString (s : string)
  | VObject (fields : list (string * JsValue))
  | VArray (items : list JsValue).

(** [ToBoolean]. *)
Definition truthy_value (v : JsValue) : bool :=
  match v with
  | VUndefined | VNull => false
  | VBool b => b
  | VNumber x => negb (PrimFloat.eqb x 0 || PrimFloat.is_nan x)
  | VString s => bool_decide (s ≠ "")
  | VObject _ | VArray _ => true
  end.

(** [v.k] for a property name that no prototype defines. *)
Definition get_prop (k : string) (v : JsValue) : JsValue :=
  match v with
  | VObject fields => default VUndefined (JsMap.get k fields)
  | _ => VUndefined
  end.

(** [typeof v === 'number']. *)
Definition is_number (v : JsValue) : bool :=
  match v with VNumber _ => true | _ => false end.

(** [v === 'superellipse']. *)
Definition is_superellipse (v : JsValue) : bool :=
  match v with
  | VString s => bool_decide (s = "superellipse")
  | _ => false
  end.

(** Object spread [{ ...target, ...source }], continued from [target]. *)
Definition spread (target source : list (string * JsValue))
    : list (string * JsValue) :=
  foldl (λ acc kv, JsMap.set kv.1 kv.2 acc) target source.

#[warnings="-inexact-float"]
Definition DEFAULT_SHAPE_CONTENT : list (string * JsValue) :=
  [ ("type", VString "superellipse");
    ("width", VNumber 320);
    ("height", VNumber 400);
    ("exp", VNumber 4);
    ("smoothing", VNumber 0.5);
    ("useAsymmetricCorners", VBool false);
    ("cornerExponents",
     VObject [("topLeft", VNumber 4); ("topRight", VNumber 4);
              ("bottomRight", VNumber 4); ("bottomLeft", VNumber 4)]);
    ("colorMode", VString "solid");
    ("solidColor", VString "#FF9F00");
    ("solidOpacity", VNumber 100);
    ("gradientStops",
     VArray
       [VObject [("color", VString "#6366F1"); ("position", VNumber 0)];
        VObject [("color", VString "#A855F7"); ("position", VNumber 50)];
        VObject [("color", VString "#EC4899"); ("position", VNumber 100)]]);
    ("gradientAngle", VNumber 135);
    ("enabled", VBool true);
    ("hue", VNumber 40);
    ("chroma", VNumber 0.18);
    ("lightness", VNumber 78);
    ("glowMaskSize", VNumber 0.3);
    ("glowScale", VNumber 0.9);
    ("glowPositionX", VNumber (-590));
    ("glowPositionY", VNumber (-1070));
    ("glowOpacity", VNumber 100);
    ("glowBlur", VNumber 120);
    ("glowSpread", VNumber 40);
    ("blur", VNumber 0);
    ("backdropBlur", VNumber 0);
    ("noiseEnabled", VBool true);
    ("noiseIntensity", VNumber 35);
    ("borderEnabled", VBool false);
    ("strokeColor", VString "#FFFFFF");
    ("strokeWidth", VNumber 2);
    ("strokePosition", VString "inside");
    ("strokeStyle", VString "solid");
    ("strokeOpacity", VNumber 100);
    ("shadowDistance", VNumber 10);
    ("shadowIntensity", VNumber 30);
    ("glowAnimation", VString "none");
    ("glowAnimationSpeed", VNumber 1);
    ("glowAnimationIntensity", VNumber 50) ].

(** [createShapeContent(overrides)]; [None] is a call without argument. *)
Definition createShapeContent (overrides : option (list (string * JsValue)))
    : list (string * JsValue) :=
  spread (spread [] DEFAULT_SHAPE_CONTENT) (default [] overrides).

(** [isValidShapeContent(content)]: the value of the [&&] chain, which is
    [content] itself when [content] is falsy. *)
Definition isValidShapeContent (content : JsValue) : JsValue :=
  if truthy_value content
  then VBool (is_superellipse (get_prop "type" content)
              && is_number (get_prop "width" content)
              && is_number (get_prop "height" content)
              && is_number (get_prop "exp" content))
  else content.

(** ** The dispatch protocol ([math.worker.ts], lines 6-30) *)

(** A message posted to the worker. The first two constructors are the
    variants of the [WorkerMessage] union; [OtherMessage type id] is any
    other object reaching the handler, whose [type] is neither tag. *)
Inductive WorkerMessage : Type :=
  | GeneratePathSymmetric (id : string) (width height exp : number)
  | GeneratePathAsymmetric (id : string) (width height : number)
      (corners : CornerExponents)
  | OtherMessage (type : string) (id : string).

Definition GENERATE_PATH_SYMMETRIC : string := "GENERATE_PATH_SYMMETRIC".
Definition GENERATE_PATH_ASYMMETRIC : string := "GENERATE_PATH_ASYMMETRIC".

Definition msg_type (m : WorkerMessage) : string :=
  match m with
  | GeneratePathSymmetric _ _ _ _ => GENERATE_PATH_SYMMETRIC
  | GeneratePathAsymmetric _ _ _ _ => GENERATE_PATH_ASYMMETRIC
  | OtherMessage type _ => type
  end.

Definition msg_id (m : WorkerMessage) : string :=
  match m with
  | GeneratePathSymmetric id _ _ _ => id
  | GeneratePathAsymmetric id _ _ _ => id
  | OtherMessage _ id => id
  end.

(** [event.data] as the client's [onmessage] destructures it:
    [{ id, pathData, error }], the last two possibly [undefined]. *)
Record WorkerResponse : Type := {
  resp_id : string;
  resp_pathData : option string;
  resp_error : option string
}.

(** Truthiness of a possibly-undefined string ([if (error)]). *)
Definition truthy (o : option string) : bool :=
  match o with
  | Some s => if decide (s = "") then false else true
  | None => false
  end.

(** ** Host runtime objects *)

(** How a promise ends. A path is [string]; [resolve(pathData)] passes on
    whatever the response carried, [undefined] included. *)
Inductive Outcome : Type :=
  | Fulfilled (pathData : option string)
  | Rejected (reason : Thrown).

Inductive PromiseState : Type :=
  | Pending
  | Settled (o : Outcome).

Inductive TimerStatus : Type := Armed | Cleared | Fired.

(** A timer created by [setTimeout]: the [id] its callback closes over,
    the delay it was given, and the clock value at which it was set. *)
Record Timer : Type := {
  timer_id : string;
  timer_delay : N;
  timer_set : N;
  timer_status : TimerStatus
}.

Definition with_status (st : TimerStatus) (t : Timer) : Timer :=
  {| timer_id := timer_id t; timer_delay := timer_delay t;
     timer_set := timer_set t; timer_status := st |}.

(** A timer is due once its delay has elapsed. *)
Definition due (t : Timer) (now : N) : bool :=
  (timer_set t + timer_delay t <=? now)%N.

(** An entry of [pendingRequests]. Its [resolve] and [reject] closures
    capture the [timeoutId] and the promise's settle functions created by
    the same run of the promise executor; [handle] names that pair. *)
Record PendingRequest : Type := { handle : nat }.

Inductive ConsoleEntry : Type :=
  | Warn (text : string)
  | Error (text : string).

(** ** State *)

Record State : Type := {
  (* module variables of the worker client *)
  requestIdCounter : N;
  pendingRequests : list (string * PendingRequest);
  worker : option nat;
  (* host runtime *)
  clock : N;
  allocated : nat;
  timers : gmap nat Timer;
  promises : gmap nat PromiseState;
  mailbox : list WorkerMessage;
  posted : gmap nat WorkerMessage;
  attempts : nat;
  spawned : nat;
  terminated : list nat;
  console : list ConsoleEntry;
  invoked : list (nat * Outcome)
}.

(** [attempts] counts the evaluations of [new Worker(...)], [spawned] the
    workers constructed (worker handles are [0 .. spawned - 1]),
    [mailbox] holds the messages posted to the live worker and not yet
    answered, [posted] remembers, per request, the message that
    [postMessage] accepted, and [invoked] records every call of an entry's
    [resolve] or [reject] closure, oldest first. *)

Definition initial : State := {|
  requestIdCounter := 0;
  pendingRequests := [];
  worker := None;
  clock := 0;
  allocated := 0;
  timers := ∅;
  promises := ∅;
  mailbox := [];
  posted := ∅;
  attempts := 0;
  spawned := 0;
  terminated := [];
  console := [];
  invoked := []
|}.

Definition set_requestIdCounter (n : N) (s : State) : State :=
  {| requestIdCounter := n; pendingRequests := pendingRequests s;
     worker := worker s; clock := clock s; allocated := allocated s;
     timers := timers s; promises := promises s; mailbox := mailbox s;
     posted := posted s; attempts := attempts s; spawned := spawned s;
     terminated := terminated s; console := console s;
     invoked := invoked s |}.

Definition set_pendingRequests (p : list (string * PendingRequest))
    (s : State) : State :=
  {| requestIdCounter := requestIdCounter s; pendingRequests := p;
     worker := worker s; clock := clock s; allocated := allocated s;
     timers := timers s; promises := promises s; mailbox := mailbox s;
     posted := posted s; attempts := attempts s; spawned := spawned s;
     terminated := terminated s; console := console s;
     invoked := invoked s |}.

Definition set_worker (w : option nat) (s : State) : State :=
  {| requestIdCounter := requestIdCounter s;
     pendingRequests := pendingRequests s;
     worker := w; clock := clock s; allocated := allocated s;
     timers := timers s; promises := promises s; mailbox := mailbox s;
     posted := posted s; attempts := attempts s; spawned := spawned s;
     terminated := terminated s; console := console s;
     invoked := invoked s |}.

Definition set_clock (c : N) (s : State) : State :=
  {| requestIdCounter := requestIdCounter s;
     pendingRequests := pendingRequests s;
     worker := worker s; clock := c; allocated := allocated s;
     timers := timers s; promises := promises s; mailbox := mailbox s;
     posted := posted s; attempts := attempts s; spawned := spawned s;
     terminated := terminated s; console := console s;
     invoked := invoked s |}.

Definition set_allocated (a : nat) (s : State) : State :=
  {| requestIdCounter := requestIdCounter s;
     pendingRequests := pendingRequests s;
     worker := worker s; clock := clock s; allocated := a;
     timers := timers s; promises := promises s; mailbox := mailbox s;
     posted := posted s; attempts := attempts s; spawned := spawned s;
     terminated := terminated s; console := console s;
     invoked := invoked s |}.

Definition set_timers (t : gmap nat Timer) (s : State) : State :=
  {| requestIdCounter := requestIdCounter s;
     pendingRequests := pendingRequests s;
     worker := worker s; clock := clock s; allocated := allocated s;
     timers := t; promises := promises s; mailbox := mailbox s;
     posted := posted s; attempts := attempts s; spawned := spawned s;
     terminated := terminated s; console := console s;
     invoked := invoked s |}.

Definition set_promises (p : gmap nat PromiseState) (s : State) : State :=
  {| requestIdCounter := requestIdCounter s;
     pendingRequests := pendingRequests s;
     worker := worker s; clock := clock s; allocated := allocated s;
     timers := timers s; promises := p; mailbox := mailbox s;
     posted := posted s; attempts := attempts s; spawned := spawned s;
     terminated := terminated s; console := console s;
     invoked := invoked s |}.

Definition set_mailbox (m : list WorkerMessage) (s : State) : State :=
  {| requestIdCounter := requestIdCounter s;
     pendingRequests := pendingRequests s;
     worker := worker s; clock := clock s; allocated := allocated s;
     timers := timers s; promises := promises s; mailbox := m;
     posted := posted s; attempts := attempts s; spawned := spawned s;
     terminated := terminated s; console := console s;
     invoked := invoked s |}.

Definition set_posted (p : gmap nat WorkerMessage) (s : State) : State :=
  {| requestIdCounter := requestIdCounter s;
     pendingRequests := pendingRequests s;
     worker := worker s; clock := clock s; allocated := allocated s;
     timers := timers s; promises := promises s; mailbox := mailbox s;
     posted := p; attempts := attempts s; spawned := spawned s;
     terminated := terminated s; console := console s;
     invoked := invoked s |}.

Definition set_attempts (a : nat) (s : State) : State :=
  {| requestIdCounter := requestIdCounter s;
     pendingRequests := pendingRequests s;
     worker := worker s; clock := clock s; allocated := allocated s;
     timers := timers s; promises := promises s; mailbox := mailbox s;
     posted := posted s; attempts := a; spawned := spawned s;
     terminated := terminated s; console := console s;
     invoked := invoked s |}.

Definition set_spawned (n : nat) (s : State) : State :=
  {| requestIdCounter := requestIdCounter s;
     pendingRequests := pendingRequests s;
     worker := worker s; clock := clock s; allocated := allocated s;
     timers := timers s; promises := promises s; mailbox := mailbox s;
     posted := posted s; attempts := attempts s; spawned := n;
     terminated := terminated s; console := console s;
     invoked := invoked s |}.

Definition set_terminated (t : list nat) (s : State) : State :=
  {| requestIdCounter := requestIdCounter s;
     pendingRequests := pendingRequests s;
     worker := worker s; clock := clock s; allocated := allocated s;
     timers := timers s; promises := promises s; mailbox := mailbox s;
     posted := posted s; attempts := attempts s; spawned := spawned s;
     terminated := t; console := console s;
     invoked := invoked s |}.

Definition set_console (c : list ConsoleEntry) (s : State) : State :=
  {| requestIdCounter := requestIdCounter s;
     pendingRequests := pendingRequests s;
     worker := worker s; clock := clock s; allocated := allocated s;
     timers := timers s; promises := promises s; mailbox := mailbox s;
     posted := posted s; attempts := attempts s; spawned := spawned s;
     terminated := terminated s; console := c;
     invoked := invoked s |}.

Definition set_invoked (i : list (nat * Outcome)) (s : State) : State :=
  {| requestIdCounter := requestIdCounter s;
     pendingRequests := pendingRequests s;
     worker := worker s; clock := clock s; allocated := allocated s;
     timers := timers s; promises := promises s; mailbox := mailbox s;
     posted := posted s; attempts := attempts s; spawned := spawned s;
     terminated := terminated s; console := console s;
     invoked := i |}.

(** ** Host operations *)

Definition console_warn (text : string) (s : State) : State :=
  set_console (console s ++ [Warn text]) s.

Definition console_error (text : string) (s : State) : State :=
  set_console (console s ++ [Error text]) s.

(** [clearTimeout]: disarms a timer that has not fired; otherwise a
    no-op. *)
Definition disarm (t : Timer) : Timer :=
  match timer_status t with
  | Armed => with_status Cleared t
  | _ => t
  end.

Definition clearTimeout (h : nat) (s : State) : State :=
  set_timers (alter disarm h (timers s)) s.

(** The settle functions of a promise: the first call decides, later
    calls are ignored. *)
Definition decide_promise (o : Outcome) (p : PromiseState) : PromiseState :=
  match p with
  | Pending => Settled o
  | Settled _ => p
  end.

Definition settle (h : nat) (o : Outcome) (s : State) : State :=
  set_promises (alter (decide_promise o) h (promises s)) s.

(** Truncation of [++requestIdCounter] to what a binary64 holds: integer
    increments are exact below [2^53] and [2^53 + 1] rounds back to
    [2^53]. *)
Definition increment (n : N) : N :=
  if decide (n < 2 ^ 53)%N then (n + 1)%N else n.

(** The template literal [`req-${++requestIdCounter}-${Date.now()}`]. *)
Definition request_id (n : N) (now : Z) : string :=
  "req-" +:+ pretty n +:+ "-" +:+ pretty now.

(** The fixed timeout budget (milliseconds). *)
Definition TIMEOUT_MS : N := 10000.

(** What the host decides during one call of an entry point. *)
Record CallEnv : Type := {
  date_now : Z;                   (* the value of [Date.now()] *)
  worker_ctor : option Thrown;    (* [Some x]: [new Worker(...)] throws [x] *)
  post_message : option Thrown    (* [Some x]: [postMessage] throws [x] *)
}.

(** What an [async] entry point hands back: a promise that is already
    settled, or one that follows the promise built by [new Promise]. *)
Inductive AsyncResult : Type :=
  | Done (o : Outcome)
  | Awaits (h : nat).

Definition of_completion (c : Completion string) : Outcome :=
  match c with
  | Normal pathData => Fulfilled (Some pathData)
  | Throws x => Rejected x
  end.

(** Modelled from the spec: the per-corner generator of [utils/math]
    (its source is not part of the repository files at hand). The spec
    says that it "falls back to the symmetric algorithm when all four
    corner exponents are equal"; [stitched] stands for the four-quadrant
    algorithm it runs otherwise. Equality of exponents is the equality of
    numbers ([===]), under which [NaN] differs from itself. *)
Definition uniform (corners : CornerExponents) : bool :=
  PrimFloat.eqb (topLeft corners) (topRight corners)
  && PrimFloat.eqb (topRight corners) (bottomRight corners)
  && PrimFloat.eqb (bottomRight corners) (bottomLeft corners).

Definition getPerCornerSuperellipsePath_spec
    (symmetric : number → number → number → Completion string)
    (stitched : number → number → CornerExponents → Completion string)
    (width height : number) (corners : CornerExponents)
    : Completion string :=
  if uniform corners then symmetric width height (topLeft corners)
  else stitched width height corners.

Section Client.

(** [utils/math]: the curve generators, called by the worker and by the
    synchronous fallbacks. *)
Variable getSuperellipsePath : number → number → number → Completion string.
Variable getPerCornerSuperellipsePath :
  number → number → CornerExponents → Completion string.

(** *** [math.worker.ts]: [self.onmessage] (lines 33-59) *)

Definition worker_onmessage (m : WorkerMessage) : WorkerResponse :=
  let id := msg_id m in
  let body : Completion string :=
    match m with
    | GeneratePathSymmetric _ width height exp =>
        getSuperellipsePath width height exp
    | GeneratePathAsymmetric _ width height corners =>
        getPerCornerSuperellipsePath width height corners
    | OtherMessage type _ =>
        Throws (ErrorObject ("Unknown message type: " +:+ type))
    end in
  match body with
  | Normal pathData =>
      {| resp_id := id; resp_pathData := Some pathData;
         resp_error := None |}
  | Throws (ErrorObject message) =>
      {| resp_id := id; resp_pathData := None;
         resp_error := Some message |}
  | Throws OtherValue =>
      {| resp_id := id; resp_pathData := None;
         resp_error := Some "Unknown error" |}
  end.

(** *** The worker client *)

(** The [resolve] and [reject] closures stored in a pending entry
    (lines 93-100 and 143-150). *)
Definition entry_resolve (r : PendingRequest) (pathData : option string)
    (s : State) : State :=
  let s := set_invoked (invoked s ++ [(handle r, Fulfilled pathData)]) s in
  let s := clearTimeout (handle r) s in
  settle (handle r) (Fulfilled pathData) s.

Definition entry_reject (r : PendingRequest) (error : Thrown)
    (s : State) : State :=
  let s := set_invoked (invoked s ++ [(handle r, Rejected error)]) s in
  let s := clearTimeout (handle r) s in
  settle (handle r) (Rejected error) s.

(** [worker.onmessage] (lines 28-44). *)
Definition client_onmessage (data : WorkerResponse) (s : State) : State :=
  let id := resp_id data in
  match JsMap.get id (pendingRequests s) with
  | None =>
      console_warn ("Received response for unknown request ID: " +:+ id) s
  | Some request =>
      let s := set_pendingRequests (JsMap.delete id (pendingRequests s)) s in
      if truthy (resp_error data)
      then entry_reject request (ErrorObject (default "" (resp_error data))) s
      else entry_resolve request (resp_pathData data) s
  end.

(** [worker.onerror] (lines 47-54). *)
Definition client_onerror (message : string) (s : State) : State :=
  let s := console_error ("Worker error: " +:+ message) s in
  let s :=
    JsMap.forEach
      (λ request, entry_reject request
                    (ErrorObject ("Worker error: " +:+ message)))
      (pendingRequests s) s in
  set_pendingRequests (JsMap.clear (pendingRequests s)) s.

(** The callback given to [setTimeout] (lines 87-90 and 137-140), for
    the request whose timer and promise are [h]. *)
Definition timeout_callback (h : nat) (id : string) (s : State) : State :=
  let s := set_pendingRequests (JsMap.delete id (pendingRequests s)) s in
  settle h (Rejected (ErrorObject "Path generation timeout")) s.

(** [initWorker] (lines 16-65): the live worker, or [None] for the
    [null] it returns when construction throws. *)
Definition initWorker (env : CallEnv) (s : State) : option nat * State :=
  match worker s with
  | Some w => (Some w, s)
  | None =>
      let s := set_attempts (S (attempts s)) s in
      match worker_ctor env with
      | None =>
          let w := spawned s in
          (Some w, set_worker (Some w) (set_spawned (S w) s))
      | Some _ =>
          (None,
           console_warn
             "Failed to create Web Worker for path generation, falling back to main thread"
             s)
      end
  end.

(** [generatePathSync] and [generatePerCornerPathSync] (lines 171-186). *)
Definition generatePathSync (width height exp : number) : Completion string :=
  getSuperellipsePath width height exp.

Definition generatePerCornerPathSync (width height : number)
    (corners : CornerExponents) : Completion string :=
  getPerCornerSuperellipsePath width height corners.

(** Lines 83-110 and 133-160, the same in both entry points up to the
    message posted: mint the id, run the promise executor (arm the
    timer, store the entry, post the message). An exception thrown by
    [postMessage] is thrown inside the executor, so the promise
    constructor turns it into a rejection of the new promise. *)
Definition dispatch (message : string → WorkerMessage) (env : CallEnv)
    (s : State) : AsyncResult * State :=
  let n := increment (requestIdCounter s) in
  let s := set_requestIdCounter n s in
  let id := request_id n (date_now env) in
  let h := allocated s in
  let s := set_allocated (S h) s in
  let s := set_promises (<[h := Pending]> (promises s)) s in
  let s :=
    set_timers
      (<[h := {| timer_id := id; timer_delay := TIMEOUT_MS;
                 timer_set := clock s; timer_status := Armed |}]>
         (timers s)) s in
  let s :=
    set_pendingRequests
      (JsMap.set id {| handle := h |} (pendingRequests s)) s in
  match post_message env with
  | None =>
      (Awaits h,
       set_posted (<[h := message id]> (posted s))
         (set_mailbox (mailbox s ++ [message id]) s))
  | Some x => (Awaits h, settle h (Rejected x) s)
  end.

(** The fallback [return generatePathSync(...)] inside [try], with the
    [catch] clause that calls the generator once more. *)
Definition fallback (sync : unit → Completion string) : AsyncResult :=
  match sync () with
  | Normal pathData => Done (Fulfilled (Some pathData))
  | Throws _ => Done (of_completion (sync ()))
  end.

(** [generatePathAsync] (lines 71-115). *)
Definition generatePathAsync (width height exp : number) (env : CallEnv)
    (s : State) : AsyncResult * State :=
  match initWorker env s with
  | (None, s) => (fallback (λ _, generatePathSync width height exp), s)
  | (Some _, s) =>
      dispatch (λ id, GeneratePathSymmetric id width height exp) env s
  end.

(** [generatePerCornerPathAsync] (lines 121-165). *)
Definition generatePerCornerPathAsync (width height : number)
    (corners : CornerExponents) (env : CallEnv) (s : State)
    : AsyncResult * State :=
  match initWorker env s with
  | (None, s) =>
      (fallback (λ _, generatePerCornerPathSync width height corners), s)
  | (Some _, s) =>
      dispatch (λ id, GeneratePathAsymmetric id width height corners) env s
  end.

(** [terminateWorker] (lines 191-197). [worker.terminate()] stops the
    worker and discards what was posted to it. *)
Definition terminateWorker (s : State) : State :=
  match worker s with
  | Some w =>
      let s := set_mailbox [] (set_terminated (terminated s ++ [w]) s) in
      let s := set_worker None s in
      set_pendingRequests (JsMap.clear (pendingRequests s)) s
  | None => s
  end.


(** ** The dispatcher as a transition system *)

(** What can happen to the client between two turns of the event loop. *)
Inductive Event : Type :=
  | CallSymmetric (width height exp : number) (env : CallEnv)
  | CallAsymmetric (width height : number) (corners : CornerExponents)
      (env : CallEnv)
  | WorkerReplies                         (* the worker answers its oldest message *)
  | MessageArrives (data : WorkerResponse)  (* any [message] event on the worker *)
  | WorkerFails (message : string)        (* an [error] event on the worker *)
  | TimerFires (h : nat)
  | TimePasses (d : N)
  | Terminate.

(** One turn. [None]: the event cannot happen in this state (there is no
    live worker, nothing to answer, the timer is not armed or not yet
    due). *)
Definition step (ev : Event) (s : State) : option State :=
  match ev with
  | CallSymmetric width height exp env =>
      Some (generatePathAsync width height exp env s).2
  | CallAsymmetric width height corners env =>
      Some (generatePerCornerPathAsync width height corners env s).2
  | WorkerReplies =>
      match worker s, mailbox s with
      | Some _, m :: rest =>
          Some (client_onmessage (worker_onmessage m) (set_mailbox rest s))
      | _, _ => None
      end
  | MessageArrives data =>
      match worker s with
      | Some _ => Some (client_onmessage data s)
      | None => None
      end
  | WorkerFails message =>
      match worker s with
      | Some _ => Some (client_onerror message s)
      | None => None
      end
  | TimerFires h =>
      match timers s !! h with
      | Some t =>
          match timer_status t with
          | Armed =>
              if due t (clock s)
              then Some (timeout_callback h (timer_id t)
                           (set_timers (<[h := with_status Fired t]> (timers s)) s))
              else None
          | _ => None
          end
      | None => None
      end
  | TimePasses d => Some (set_clock (clock s + d)%N s)
  | Terminate => Some (terminateWorker s)
  end.

Fixpoint run (evs : list Event) (s : State) : option State :=
  match evs with
  | [] => Some s
  | ev :: evs => s' ← step ev s; run evs s'
  end.

Inductive reachable : State → Prop :=
  | reachable_initial : reachable initial
  | reachable_step s ev s' :
      reachable s → step ev s = Some s' → reachable s'.


(** A completion of the generator that the worker protocol carries to
    the client unchanged: a path, or an [Error] whose message is not
    empty (the client tests [if (error)] on the message). *)
Definition carried (c : Completion string) : Prop :=
  match c with
  | Normal _ => True
  | Throws (ErrorObject message) => message ≠ ""
  | Throws OtherValue => False
  end.

(** ** Predicates on the states of the client *)

(** The promise and timer handles captured by the entries of a table. *)
Definition handles (m : list (string * PendingRequest)) : list nat :=
  (λ kv, handle kv.2) <$> m.

(** What holds in every reachable state. *)
Record Inv (s : State) : Prop := {
  (* handles not yet allocated name nothing *)
  inv_timers_fresh : ∀ h, allocated s ≤ h → timers s !! h = None;
  inv_promises_fresh : ∀ h, allocated s ≤ h → promises s !! h = None;
  inv_posted_fresh : ∀ h, allocated s ≤ h → posted s !! h = None;
  inv_invoked_lt : ∀ h, h ∈ (invoked s).*1 → h < allocated s;
  (* the table: one entry per id, one entry per handle, and no entry
     whose callback has run *)
  inv_keys : NoDup (JsMap.keys (pendingRequests s));
  inv_once : NoDup ((invoked s).*1 ++ handles (pendingRequests s));
  (* an entry's timer is armed and closes over the entry's id *)
  inv_entry : ∀ id r, (id, r) ∈ pendingRequests s →
    ∃ t, timers s !! handle r = Some t ∧ timer_id t = id ∧
         timer_status t = Armed;
  (* an unsettled promise still has its timer *)
  inv_pending : ∀ h, promises s !! h = Some Pending →
    ∃ t, timers s !! h = Some t ∧ timer_status t = Armed;
  (* a request that was posted and whose timer is armed is unsettled *)
  inv_posted : ∀ h t, timers s !! h = Some t → timer_status t = Armed →
    is_Some (posted s !! h) → promises s !! h = Some Pending;
  inv_delay : ∀ h t, timers s !! h = Some t → timer_delay t = TIMEOUT_MS;
  inv_timer_set : ∀ h t, timers s !! h = Some t → (timer_set t ≤ clock s)%N;
  (* the worker *)
  inv_mailbox : worker s = None → mailbox s = [];
  inv_worker : ∀ w, worker s = Some w → w < spawned s ∧ w ∉ terminated s;
  inv_terminated : ∀ w, w ∈ terminated s → w < spawned s
}.

(** What [entry_resolve] and [entry_reject] have in common. *)
Definition callback (r : PendingRequest) (o : Outcome) (s : State) : State :=
  settle (handle r) o
    (clearTimeout (handle r)
       (set_invoked (invoked s ++ [(handle r, o)]) s)).

(** Promises only ever go from pending to settled. *)
Definition promises_grow (s s' : State) : Prop :=
  ∀ h o, promises s !! h = Some (Settled o) →
         promises s' !! h = Some (Settled o).

(** Decimal numerals, of which the request ids are made. *)
Definition is_digit (c : ascii) : bool :=
  bool_decide (c ∈ ["0"; "1"; "2"; "3"; "4"; "5"; "6"; "7"; "8"; "9"]%char).

Fixpoint digits (s : string) : bool :=
  match s with
  | EmptyString => true
  | String c s => is_digit c && digits s
  end.

(** More of what holds in every reachable state. *)
Record Inv2 (s : State) : Prop := {
  (* the counter counts the requests dispatched, up to where it sticks *)
  inv2_counter :
    requestIdCounter s = N.min (N.of_nat (allocated s)) (2 ^ 53);
  inv2_allocated : ∀ h, h < allocated s →
    is_Some (timers s !! h) ∧ is_Some (promises s !! h);
  inv2_timer_id : ∀ h t, timers s !! h = Some t →
    ∃ z, timer_id t = request_id (N.min (N.of_nat (S h)) (2 ^ 53)) z;
  (* a closure that has run has cleared its timer *)
  inv2_invoked : ∀ h t, h ∈ (invoked s).*1 → timers s !! h = Some t →
    timer_status t ≠ Armed;
  (* workers are numbered in the order they are built, and all but the
     live one have been terminated, in that order *)
  inv2_terminated : terminated s = seq 0 (length (terminated s));
  inv2_worker : ∀ w, worker s = Some w → w = length (terminated s);
  inv2_spawned :
    spawned s
    = length (terminated s) + match worker s with Some _ => 1 | None => 0 end;
  inv2_attempts : spawned s ≤ attempts s;
  (* without a worker nothing is registered *)
  inv2_no_worker : worker s = None → pendingRequests s = []
}.

(** ** Invariants of the reachable states *)

Lemma entry_resolve_callback r pathData s :
  entry_resolve r pathData s = callback r (Fulfilled pathData) s.
Proof. reflexivity. Qed.

Lemma entry_reject_callback r error s :
  entry_reject r error s = callback r (Rejected error) s.
Proof. reflexivity. Qed.

Lemma disarm_not_armed t : timer_status (disarm t) ≠ Armed.
Proof. unfold disarm. by destruct (timer_status t) eqn:E; simpl; rewrite ?E. Qed.

Lemma decide_promise_not_pending o p : decide_promise o p ≠ Pending.
Proof. by destruct p. Qed.

Lemma Inv_initial : Inv initial.
Proof.
  split; simpl; intros;
    repeat match goal with
    | H : _ ∈ [] |- _ => by apply elem_of_nil in H
    | H : ∅ !! _ = Some _ |- _ => by rewrite lookup_empty in H
    | H : is_Some (∅ !! _) |- _ => rewrite lookup_empty in H; by destruct H
    end; try done; try apply lookup_empty; try constructor.
Qed.

Lemma timer_delay_disarm t : timer_delay (disarm t) = timer_delay t.
Proof. unfold disarm. by destruct (timer_status t). Qed.

Lemma timer_set_disarm t : timer_set (disarm t) = timer_set t.
Proof. unfold disarm. by destruct (timer_status t). Qed.

Lemma timer_id_disarm t : timer_id (disarm t) = timer_id t.
Proof. unfold disarm. by destruct (timer_status t). Qed.

Lemma handles_delete_sublist id m :
  handles (JsMap.delete id m) `sublist_of` handles m.
Proof. apply fmap_sublist, JsMap.delete_sublist. Qed.

Lemma handle_lt_allocated s id r :
  Inv s → (id, r) ∈ pendingRequests s → handle r < allocated s.
Proof.
  intros HI Hin. destruct (inv_entry s HI id r Hin) as (t & Ht & _).
  destruct (decide (handle r < allocated s)) as [|Hge]; [done|].
  rewrite (inv_timers_fresh s HI) in Ht by lia. done.
Qed.

Lemma Inv_console c s : Inv s → Inv (set_console c s).
Proof. intros []; by split. Qed.

Lemma Inv_clock d s : Inv s → Inv (set_clock (clock s + d)%N s).
Proof.
  intros HI. destruct HI; split; simpl; try done.
  intros h t Ht. specialize (inv_timer_set0 h t Ht). lia.
Qed.

Lemma Inv_mailbox m s : is_Some (worker s) → Inv s → Inv (set_mailbox m s).
Proof.
  intros [w Hw] []; split; simpl; try done. by rewrite Hw.
Qed.

Lemma Inv_delete id s :
  Inv s → Inv (set_pendingRequests (JsMap.delete id (pendingRequests s)) s).
Proof.
  intros []; split; simpl; try done.
  - by apply JsMap.NoDup_keys_delete.
  - eapply sublist_NoDup; [done|].
    apply sublist_app; [done | apply handles_delete_sublist].
  - intros id' r Hin. apply inv_entry0. by eapply JsMap.elem_delete.
Qed.

Lemma Inv_callback r o s :
  Inv s → handle r < allocated s →
  handle r ∉ (invoked s).*1 ++ handles (pendingRequests s) →
  Inv (callback r o s).
Proof.
  intros HI Hlt Hnotin. rewrite not_elem_of_app in Hnotin.
  destruct Hnotin as [Hni Hnh].
  destruct HI; split; simpl; try done.
  - intros h Hh. rewrite lookup_alter_None. auto.
  - intros h Hh. rewrite lookup_alter_None. auto.
  - intros h. rewrite fmap_app, elem_of_app. simpl.
    intros [?| ->%list_elem_of_singleton]; auto.
  - rewrite fmap_app. simpl.
    rewrite <-(assoc_L (++)). simpl. rewrite <-Permutation_middle.
    apply NoDup_cons. split; [|done]. rewrite not_elem_of_app. done.
  - intros id r' Hin. rewrite lookup_alter_ne; [by apply inv_entry0|].
    intros Heq. apply Hnh. unfold handles. apply list_elem_of_fmap.
    by exists (id, r').
  - intros h. destruct (decide (handle r = h)) as [<-|Hne].
    + rewrite lookup_alter_eq. destruct (promises s !! handle r); simpl; [|done].
      intros [= E]. by apply decide_promise_not_pending in E.
    + rewrite !lookup_alter_ne by done. apply inv_pending0.
  - intros h t. destruct (decide (handle r = h)) as [<-|Hne].
    + rewrite lookup_alter_eq. destruct (timers s !! handle r); simpl; [|done].
      intros [= <-] E. by apply disarm_not_armed in E.
    + rewrite !lookup_alter_ne by done. apply inv_posted0.
  - intros h t. destruct (decide (handle r = h)) as [<-|Hne].
    + rewrite lookup_alter_eq.
      destruct (timers s !! handle r) eqn:E; simpl; [|done].
      intros [= <-]. rewrite timer_delay_disarm. eauto.
    + rewrite !lookup_alter_ne by done. apply inv_delay0.
  - intros h t. destruct (decide (handle r = h)) as [<-|Hne].
    + rewrite lookup_alter_eq.
      destruct (timers s !! handle r) eqn:E; simpl; [|done].
      intros [= <-]. rewrite timer_set_disarm. eauto.
    + rewrite !lookup_alter_ne by done. apply inv_timer_set0.
Qed.

Lemma Inv_clear s : Inv s → Inv (set_pendingRequests [] s).
Proof.
  intros []; split; simpl; try done.
  - constructor.
  - rewrite app_nil_r. by apply NoDup_app in inv_once0 as (? & _ & _).
  - intros ?? []%elem_of_nil.
Qed.

Lemma Inv_onmessage data s : Inv s → Inv (client_onmessage data s).
Proof.
  intros HI. unfold client_onmessage.
  destruct (JsMap.get _ _) as [r|] eqn:Hget; [|by apply Inv_console].
  assert (Inv (callback r
            (if truthy (resp_error data)
             then Rejected (ErrorObject (default "" (resp_error data)))
             else Fulfilled (resp_pathData data))
            (set_pendingRequests
               (JsMap.delete (resp_id data) (pendingRequests s)) s))) as HI'.
  { apply Inv_callback; simpl.
    - by apply Inv_delete.
    - eapply handle_lt_allocated; [done|]. by apply JsMap.get_Some_elem.
    - pose proof (inv_once s HI) as Hnd.
      apply JsMap.get_perm_delete in Hget.
      unfold handles in Hnd. rewrite Hget in Hnd. simpl in Hnd.
      rewrite <-Permutation_middle in Hnd. by apply NoDup_cons in Hnd as [? _]. }
  by destruct (truthy _).
Qed.

Lemma foldl_reject_table error p l s :
  foldl (λ acc (kv : string * PendingRequest), entry_reject kv.2 error acc) (set_pendingRequests p s) l
  = set_pendingRequests p
      (foldl (λ acc (kv : string * PendingRequest), entry_reject kv.2 error acc) s l).
Proof.
  revert s. induction l as [|kv l IH]; intros s; [done|].
  exact (IH (entry_reject kv.2 error s)).
Qed.

(** The loop of [worker.onerror] never looks at the table it iterates
    over, so clearing the table first gives the same final state. *)
Lemma client_onerror_unfold message s :
  client_onerror message s
  = foldl (λ acc (kv : string * PendingRequest),
             entry_reject kv.2 (ErrorObject ("Worker error: " +:+ message)) acc)
      (set_pendingRequests []
         (console_error ("Worker error: " +:+ message) s))
      (pendingRequests s).
Proof.
  unfold client_onerror, JsMap.forEach, JsMap.clear. simpl.
  by rewrite foldl_reject_table.
Qed.

Lemma Inv_reject_all error l s :
  Inv s → pendingRequests s = [] →
  NoDup ((invoked s).*1 ++ handles l) →
  (∀ kv, kv ∈ l → handle kv.2 < allocated s) →
  Inv (foldl (λ acc (kv : string * PendingRequest), entry_reject kv.2 error acc) s l).
Proof.
  revert s. induction l as [|[id r] l IH]; intros s HI Hp Hnd Hlt; [done|].
  simpl. apply IH.
  - rewrite entry_reject_callback. apply Inv_callback; [done| |].
    + apply (Hlt (id, r)), list_elem_of_here.
    + rewrite Hp. simpl. rewrite app_nil_r.
      simpl in Hnd. rewrite <-Permutation_middle in Hnd.
      apply NoDup_cons in Hnd as [Hn _]. rewrite not_elem_of_app in Hn.
      by destruct Hn.
  - done.
  - simpl. rewrite fmap_app, <-(assoc_L (++)). done.
  - intros kv Hkv. simpl. apply Hlt. by apply list_elem_of_further.
Qed.

Lemma Inv_onerror message s : Inv s → Inv (client_onerror message s).
Proof.
  intros HI. rewrite client_onerror_unfold. apply Inv_reject_all.
  - by apply Inv_clear, Inv_console.
  - done.
  - simpl. apply (inv_once s HI).
  - intros [id r] Hin. simpl. by eapply handle_lt_allocated.
Qed.

Lemma Inv_timeout h t s :
  Inv s → timers s !! h = Some t → timer_status t = Armed →
  Inv (timeout_callback h (timer_id t)
         (set_timers (<[h := with_status Fired t]> (timers s)) s)).
Proof.
  intros HI Ht Harmed.
  assert (h < allocated s) as Hlt.
  { destruct (decide (h < allocated s)) as [|Hge]; [done|].
    rewrite (inv_timers_fresh s HI) in Ht by lia. done. }
  pose proof HI as [].
  split; simpl; try done.
  - intros h' Hh'. rewrite lookup_insert_ne by lia. auto.
  - intros h' Hh'. rewrite lookup_alter_None. auto.
  - by apply JsMap.NoDup_keys_delete.
  - eapply sublist_NoDup; [done|].
    apply sublist_app; [done | apply handles_delete_sublist].
  - intros id' r' Hin.
    pose proof (JsMap.elem_delete_ne _ _ _ _ inv_keys0 Hin) as Hne.
    apply JsMap.elem_delete in Hin.
    destruct (inv_entry0 _ _ Hin) as (t' & Ht' & Hid & Hst).
    exists t'. split; [|done]. rewrite lookup_insert_ne; [done|].
    intros ->. congruence.
  - intros h'. destruct (decide (h = h')) as [<-|Hne].
    + rewrite lookup_alter_eq. destruct (promises s !! h); simpl; [|done].
      intros [= E]. by apply decide_promise_not_pending in E.
    + rewrite lookup_alter_ne, lookup_insert_ne by done. apply inv_pending0.
  - intros h' t'. destruct (decide (h = h')) as [<-|Hne].
    + rewrite lookup_insert_eq. by intros [= <-].
    + rewrite lookup_alter_ne, lookup_insert_ne by done. apply inv_posted0.
  - intros h' t'. destruct (decide (h = h')) as [<-|Hne].
    + rewrite lookup_insert_eq. intros [= <-]. simpl. eauto.
    + rewrite lookup_insert_ne by done. apply inv_delay0.
  - intros h' t'. destruct (decide (h = h')) as [<-|Hne].
    + rewrite lookup_insert_eq. intros [= <-]. simpl. eauto.
    + rewrite lookup_insert_ne by done. apply inv_timer_set0.
Qed.

Lemma initWorker_worker env s :
  worker (initWorker env s).2 = (initWorker env s).1.
Proof.
  unfold initWorker. destruct (worker s) eqn:E; simpl; [done|].
  destruct (worker_ctor env); simpl; done.
Qed.

Lemma Inv_initWorker env s : Inv s → Inv (initWorker env s).2.
Proof.
  intros HI. unfold initWorker. destruct (worker s) eqn:Hw; [done|].
  pose proof HI as [].
  destruct (worker_ctor env); simpl.
  - split; simpl; done.
  - split; simpl; try done.
    + intros w [= <-]. split; [lia|]. intros Hin.
      apply inv_terminated0 in Hin. lia.
    + intros w Hin. apply inv_terminated0 in Hin. lia.
Qed.

Lemma Inv_dispatch message env s :
  Inv s → is_Some (worker s) → Inv (dispatch message env s).2.
Proof.
  intros HI [w Hw]. pose proof HI as [].
  set (h := allocated s).
  set (id := request_id (increment (requestIdCounter s)) (date_now env)).
  assert (h ∉ (invoked s).*1) as Hhi.
  { intros Hin. apply inv_invoked_lt0 in Hin. unfold h in Hin. lia. }
  assert (h ∉ handles (pendingRequests s)) as Hhh.
  { intros ((id' & r') & Heq & Hin)%list_elem_of_fmap. simpl in Heq.
    pose proof (handle_lt_allocated s id' r' HI Hin). unfold h in Heq. lia. }
  assert (NoDup ((invoked s).*1 ++
            handles (JsMap.set id {| handle := h |} (pendingRequests s)))).
  { unfold handles. rewrite JsMap.set_perm. simpl.
    rewrite <-Permutation_middle. apply NoDup_cons. split.
    - rewrite not_elem_of_app. split; [done|]. intros Hin. apply Hhh.
      eapply elem_of_sublist; [exact Hin | apply handles_delete_sublist].
    - eapply sublist_NoDup; [done|].
      apply sublist_app; [done | apply handles_delete_sublist]. }
  assert (∀ id' r',
    (id', r') ∈ JsMap.set id {| handle := h |} (pendingRequests s) →
    ∃ t, <[h := {| timer_id := id; timer_delay := TIMEOUT_MS;
                   timer_set := clock s; timer_status := Armed |}]>
           (timers s) !! handle r' = Some t
         ∧ timer_id t = id' ∧ timer_status t = Armed) as Hentry.
  { intros id' r' [[= -> ->] | Hin]%JsMap.elem_set.
    - simpl. rewrite lookup_insert_eq. eauto.
    - rewrite lookup_insert_ne; [by apply inv_entry0|].
      intros Heq. apply Hhh. apply list_elem_of_fmap. by exists (id', r'). }
  unfold dispatch. fold h id. destruct (post_message env) as [x|]; simpl.
  - split; simpl; try done.
    + intros h' Hh'. rewrite lookup_insert_ne by lia. apply inv_timers_fresh0. lia.
    + intros h' Hh'. rewrite lookup_alter_None, lookup_insert_ne by lia.
      apply inv_promises_fresh0. lia.
    + intros h' Hh'. apply inv_posted_fresh0. lia.
    + intros h' Hin. apply inv_invoked_lt0 in Hin. lia.
    + by apply JsMap.NoDup_keys_set.
    + intros h'. destruct (decide (h = h')) as [<-|Hne].
      * rewrite lookup_alter_eq, lookup_insert_eq. done.
      * rewrite lookup_alter_ne, !lookup_insert_ne by done. apply inv_pending0.
    + intros h' t'. destruct (decide (h = h')) as [<-|Hne].
      * intros _ _ [m Hm]. rewrite inv_posted_fresh0 in Hm by done. done.
      * rewrite lookup_alter_ne, !lookup_insert_ne by done. apply inv_posted0.
    + intros h' t'. destruct (decide (h = h')) as [<-|Hne].
      * rewrite lookup_insert_eq. by intros [= <-].
      * rewrite lookup_insert_ne by done. apply inv_delay0.
    + intros h' t'. destruct (decide (h = h')) as [<-|Hne].
      * rewrite lookup_insert_eq. by intros [= <-].
      * rewrite lookup_insert_ne by done. apply inv_timer_set0.
  - split; simpl; try done.
    + intros h' Hh'. rewrite lookup_insert_ne by lia. apply inv_timers_fresh0. lia.
    + intros h' Hh'. rewrite lookup_insert_ne by lia.
      apply inv_promises_fresh0. lia.
    + intros h' Hh'. rewrite lookup_insert_ne by lia.
      apply inv_posted_fresh0. lia.
    + intros h' Hin. apply inv_invoked_lt0 in Hin. lia.
    + by apply JsMap.NoDup_keys_set.
    + intros h'. destruct (decide (h = h')) as [<-|Hne].
      * rewrite !lookup_insert_eq. eauto.
      * rewrite !lookup_insert_ne by done. apply inv_pending0.
    + intros h' t'. destruct (decide (h = h')) as [<-|Hne].
      * rewrite !lookup_insert_eq. done.
      * rewrite !lookup_insert_ne by done. apply inv_posted0.
    + intros h' t'. destruct (decide (h = h')) as [<-|Hne].
      * rewrite lookup_insert_eq. by intros [= <-].
      * rewrite lookup_insert_ne by done. apply inv_delay0.
    + intros h' t'. destruct (decide (h = h')) as [<-|Hne].
      * rewrite lookup_insert_eq. by intros [= <-].
      * rewrite lookup_insert_ne by done. apply inv_timer_set0.
    + by rewrite Hw.
Qed.

Lemma Inv_terminate s : Inv s → Inv (terminateWorker s).
Proof.
  intros HI. unfold terminateWorker. destruct (worker s) as [w|] eqn:Hw; [|done].
  pose proof HI as []. split; simpl; try done.
  - constructor.
  - rewrite app_nil_r. by apply NoDup_app in inv_once0 as (? & _ & _).
  - intros ?? []%elem_of_nil.
  - intros w' [Hin | ->%list_elem_of_singleton]%elem_of_app; [auto|].
    by apply inv_worker0.
Qed.

Lemma Inv_generatePathAsync width height exp env s :
  Inv s → Inv (generatePathAsync width height exp env s).2.
Proof.
  intros HI. unfold generatePathAsync.
  pose proof (Inv_initWorker env s HI) as HI'.
  pose proof (initWorker_worker env s) as Hw.
  destruct (initWorker env s) as [[w|] s']; simpl in *; [|done].
  apply Inv_dispatch; [done | by rewrite Hw].
Qed.

Lemma Inv_generatePerCornerPathAsync width height corners env s :
  Inv s → Inv (generatePerCornerPathAsync width height corners env s).2.
Proof.
  intros HI. unfold generatePerCornerPathAsync.
  pose proof (Inv_initWorker env s HI) as HI'.
  pose proof (initWorker_worker env s) as Hw.
  destruct (initWorker env s) as [[w|] s']; simpl in *; [|done].
  apply Inv_dispatch; [done | by rewrite Hw].
Qed.

Lemma Inv_step ev s s' : Inv s → step ev s = Some s' → Inv s'.
Proof.
  intros HI. destruct ev; simpl.
  - intros [= <-]. by apply Inv_generatePathAsync.
  - intros [= <-]. by apply Inv_generatePerCornerPathAsync.
  - destruct (worker s) eqn:Hw; [|done]. destruct (mailbox s); [done|].
    intros [= <-]. apply Inv_onmessage, Inv_mailbox; [by rewrite Hw | done].
  - destruct (worker s); [|done]. intros [= <-]. by apply Inv_onmessage.
  - destruct (worker s); [|done]. intros [= <-]. by apply Inv_onerror.
  - destruct (timers s !! h) as [t|] eqn:Ht; [|done].
    destruct (timer_status t) eqn:Hst; try done.
    destruct (due t (clock s)); [|done].
    intros [= <-]. by apply Inv_timeout.
  - intros [= <-]. by apply Inv_clock.
  - intros [= <-]. by apply Inv_terminate.
Qed.

Lemma reachable_Inv s : reachable s → Inv s.
Proof.
  induction 1 as [|s ev s' _ IH Hstep]; [apply Inv_initial|].
  by eapply Inv_step.
Qed.

Lemma run_reachable evs s s' : reachable s → run evs s = Some s' → reachable s'.
Proof.
  revert s. induction evs as [|ev evs IH]; intros s Hs; simpl.
  - by intros [= <-].
  - destruct (step ev s) as [s1|] eqn:Hstep; simpl; [|done].
    apply IH. by eapply reachable_step.
Qed.

(** *** Promises only ever go from pending to settled *)



Lemma promises_grow_alter s s' h o :
  promises s' = alter (decide_promise o) h (promises s) → promises_grow s s'.
Proof.
  intros E h' o' Hs. rewrite E. destruct (decide (h = h')) as [<-|Hne].
  - by rewrite lookup_alter_eq, Hs.
  - by rewrite lookup_alter_ne.
Qed.

Lemma promises_grow_callback r o s : promises_grow s (callback r o s).
Proof. by apply (promises_grow_alter _ _ (handle r) o). Qed.







(** *** What each handler does to the table *)

Lemma initWorker_frame env s :
  requestIdCounter (initWorker env s).2 = requestIdCounter s
  ∧ pendingRequests (initWorker env s).2 = pendingRequests s
  ∧ clock (initWorker env s).2 = clock s
  ∧ allocated (initWorker env s).2 = allocated s
  ∧ timers (initWorker env s).2 = timers s
  ∧ promises (initWorker env s).2 = promises s
  ∧ mailbox (initWorker env s).2 = mailbox s
  ∧ posted (initWorker env s).2 = posted s
  ∧ terminated (initWorker env s).2 = terminated s
  ∧ invoked (initWorker env s).2 = invoked s.
Proof.
  unfold initWorker. destruct (worker s); [done|].
  by destruct (worker_ctor env).
Qed.


Lemma pendingRequests_onmessage data s :
  pendingRequests (client_onmessage data s)
  = match JsMap.get (resp_id data) (pendingRequests s) with
    | Some _ => JsMap.delete (resp_id data) (pendingRequests s)
    | None => pendingRequests s
    end.
Proof.
  unfold client_onmessage. destruct (JsMap.get _ _); [|done].
  by destruct (truthy _).
Qed.

Lemma resp_id_worker_onmessage m : resp_id (worker_onmessage m) = msg_id m.
Proof.
  unfold worker_onmessage.
  by destruct m; simpl; repeat (case_match; simpl).
Qed.




(** ** Properties of the dispatcher *)


(** C2 (amended): a failed construction leaves [worker] unset and is not
    remembered, so as long as there is no worker every call of either
    entry point evaluates [new Worker] once more; the call is answered by
    the synchronous generator if that attempt fails too, and is dispatched
    to the new worker if it succeeds. *)
Theorem C2_failed_construction_is_retried width height exp corners env s :
  worker s = None →
  attempts (generatePathAsync width height exp env s).2 = S (attempts s)
  ∧ attempts (generatePerCornerPathAsync width height corners env s).2
    = S (attempts s)
  ∧ (is_Some (worker_ctor env) →
       worker (generatePathAsync width height exp env s).2 = None
       ∧ (generatePathAsync width height exp env s).1
         = Done (of_completion (generatePathSync width height exp))
       ∧ worker (generatePerCornerPathAsync width height corners env s).2
         = None
       ∧ (generatePerCornerPathAsync width height corners env s).1
         = Done (of_completion
                   (generatePerCornerPathSync width height corners)))
  ∧ (worker_ctor env = None →
       worker (generatePathAsync width height exp env s).2
       = Some (spawned s)
       ∧ (generatePathAsync width height exp env s).1 = Awaits (allocated s)
       ∧ worker (generatePerCornerPathAsync width height corners env s).2
         = Some (spawned s)
       ∧ (generatePerCornerPathAsync width height corners env s).1
         = Awaits (allocated s)).
Proof.
  intros Hw.
  unfold generatePathAsync, generatePerCornerPathAsync, initWorker, fallback,
    dispatch.
  rewrite Hw. split_and!.
  - destruct (worker_ctor env); simpl; [done|]. by destruct (post_message env).
  - destruct (worker_ctor env); simpl; [done|]. by destruct (post_message env).
  - intros [x ->]. simpl. split_and!; try done.
    + by destruct (generatePathSync width height exp).
    + by destruct (generatePerCornerPathSync width height corners).
  - intros ->. simpl. by destruct (post_message env).
Qed.

(** C3 (what the code does instead): when [postMessage] throws, the
    exception is raised inside the promise executor, so the call returns
    the new promise, rejected with the thrown value; nothing falls back to
    the synchronous generator, and the entry and its armed timer stay
    behind. *)
Theorem C3_post_failure_rejects width height exp env s x :
  is_Some (initWorker env s).1 → post_message env = Some x →
  (generatePathAsync width height exp env s).1 = Awaits (allocated s)
  ∧ promises (generatePathAsync width height exp env s).2 !! allocated s
    = Some (Settled (Rejected x))
  ∧ JsMap.get (request_id (increment (requestIdCounter s)) (date_now env))
      (pendingRequests (generatePathAsync width height exp env s).2)
    = Some {| handle := allocated s |}
  ∧ (∃ t, timers (generatePathAsync width height exp env s).2 !! allocated s
          = Some t ∧ timer_status t = Armed)
  ∧ invoked (generatePathAsync width height exp env s).2 = invoked s.
Proof.
  intros Hsome Hpost. unfold generatePathAsync.
  pose proof (initWorker_frame env s)
    as (Hc & Hp & _ & Ha & _ & _ & _ & _ & _ & Hi).
  destruct (initWorker env s) as [[w|] s1]; simpl in *; [|by destruct Hsome].
  unfold dispatch. rewrite Hpost. simpl. rewrite Ha, Hc, Hi. split_and!.
  - done.
  - by rewrite lookup_alter_eq, lookup_insert_eq.
  - apply JsMap.get_set_eq.
  - eexists. by rewrite lookup_insert_eq.
  - done.
Qed.







(** C10: for every message whose [type] is neither of the two tags, the
    worker's handler answers with exactly one response, which carries the
    id of the message, no path, and the error text naming the unknown
    type. *)
Theorem C10_unknown_type_error_response m :
  msg_type m ≠ GENERATE_PATH_SYMMETRIC →
  msg_type m ≠ GENERATE_PATH_ASYMMETRIC →
  worker_onmessage m
  = {| resp_id := msg_id m; resp_pathData := None;
       resp_error := Some ("Unknown message type: " +:+ msg_type m) |}.
Proof. by destruct m. Qed.

(** ** Further properties of the client and the worker *)

(** *** Decimal numerals and the request ids *)

Lemma pretty_N_char_digit x : is_digit (pretty_N_char x) = true.
Proof. unfold pretty_N_char. by repeat case_match. Qed.

Lemma digits_pretty_N_go x s :
  digits s = true → digits (pretty_N_go x s) = true.
Proof.
  revert s. induction (N.lt_wf_0 x) as [x _ IH]; intros s Hs.
  destruct (decide (x = 0)%N) as [->|Hx].
  - by rewrite pretty_N_go_0.
  - rewrite pretty_N_go_step by lia. apply IH.
    + apply N.div_lt; lia.
    + simpl. by rewrite pretty_N_char_digit.
Qed.

Lemma digits_pretty_N (n : N) : digits (pretty n) = true.
Proof.
  unfold pretty, pretty_N. case_decide; [done|].
  by apply digits_pretty_N_go.
Qed.

Lemma digits_prefix_inj s1 s2 r1 r2 :
  digits s1 = true → digits s2 = true →
  s1 +:+ String "-" r1 = s2 +:+ String "-" r2 → s1 = s2 ∧ r1 = r2.
Proof.
  revert s2. induction s1 as [|c1 s1 IH]; intros [|c2 s2]; simpl.
  - by intros _ _ [= ->].
  - intros _ Hd [= <- _]. done.
  - intros Hd _ [= -> _]. done.
  - intros [_ H1]%andb_prop [_ H2]%andb_prop [= -> Heq].
    by destruct (IH _ H1 H2 Heq) as [-> ->].
Qed.

Lemma request_id_inj n z n' z' :
  request_id n z = request_id n' z' → n = n' ∧ z = z'.
Proof.
  unfold request_id. simpl. intros [= Heq].
  apply digits_prefix_inj in Heq as [Hn Hz]; try apply digits_pretty_N.
  split; [by apply (inj pretty) | by apply (inj pretty)].
Qed.

(** *** More invariants *)

Lemma Inv2_initial : Inv2 initial.
Proof. split; simpl; try done. lia. Qed.

Lemma Inv2_table p s :
  (worker s = None → p = []) → Inv2 s → Inv2 (set_pendingRequests p s).
Proof. intros Hp []; by split. Qed.

Lemma Inv2_delete id s :
  Inv2 s → Inv2 (set_pendingRequests (JsMap.delete id (pendingRequests s)) s).
Proof.
  intros HI. apply Inv2_table; [|done].
  intros Hw. by rewrite (inv2_no_worker s HI Hw).
Qed.

Lemma Inv2_callback r o s : Inv2 s → Inv2 (callback r o s).
Proof.
  intros []; split; simpl; try done.
  - intros h Hh. rewrite !lookup_alter_is_Some. auto.
  - intros h t. destruct (decide (handle r = h)) as [<-|Hne].
    + rewrite lookup_alter_eq.
      destruct (timers s !! handle r) as [t0|] eqn:E; simpl; [|done].
      intros [= <-]. rewrite timer_id_disarm. eauto.
    + rewrite lookup_alter_ne by done. eauto.
  - intros h t. rewrite fmap_app, elem_of_app. simpl.
    destruct (decide (handle r = h)) as [<-|Hne].
    + intros _. rewrite lookup_alter_eq.
      destruct (timers s !! handle r) as [t0|] eqn:E; simpl; [|done].
      intros [= <-]. apply disarm_not_armed.
    + rewrite lookup_alter_ne by done.
      intros [?| ?%list_elem_of_singleton]; [eauto | done].
Qed.

Lemma Inv2_onmessage data s : Inv2 s → Inv2 (client_onmessage data s).
Proof.
  intros HI. unfold client_onmessage.
  destruct (JsMap.get _ _) as [r|]; [|by destruct HI].
  pose proof (Inv2_delete (resp_id data) s HI) as HI'.
  destruct (truthy _).
  - by apply (Inv2_callback r (Rejected _)).
  - by apply (Inv2_callback r (Fulfilled _)).
Qed.

Lemma Inv2_reject_all error l s :
  Inv2 s →
  Inv2 (foldl (λ acc (kv : string * PendingRequest),
                 entry_reject kv.2 error acc) s l).
Proof.
  revert s. induction l as [|kv l IH]; intros s HI; [done|].
  simpl. apply IH. by apply (Inv2_callback kv.2 (Rejected error)).
Qed.

Lemma Inv2_onerror message s : Inv2 s → Inv2 (client_onerror message s).
Proof.
  intros HI. rewrite client_onerror_unfold. apply Inv2_reject_all.
  by destruct HI.
Qed.

Lemma Inv2_timeout h t s :
  Inv2 s → timers s !! h = Some t →
  Inv2 (timeout_callback h (timer_id t)
          (set_timers (<[h := with_status Fired t]> (timers s)) s)).
Proof.
  intros HI Ht. pose proof (Inv2_delete (timer_id t) s HI) as [].
  destruct HI. split; simpl in *; try done.
  - intros h' Hh'. rewrite lookup_alter_is_Some, lookup_insert_is_Some'.
    destruct (inv2_allocated1 h' Hh'). auto.
  - intros h' t'. destruct (decide (h = h')) as [<-|Hne].
    + rewrite lookup_insert_eq. intros [= <-]. simpl. eauto.
    + rewrite lookup_insert_ne by done. eauto.
  - intros h' t' Hin. destruct (decide (h = h')) as [<-|Hne].
    + rewrite lookup_insert_eq. by intros [= <-].
    + rewrite lookup_insert_ne by done. eauto.
Qed.

Lemma Inv2_initWorker env s : Inv2 s → Inv2 (initWorker env s).2.
Proof.
  intros HI. unfold initWorker. destruct (worker s) eqn:Hw; [done|].
  destruct HI. rewrite Hw in *.
  destruct (worker_ctor env); split; simpl; rewrite ?Hw; try done; try lia.
  intros w [= <-]. lia.
Qed.

Lemma increment_counter a :
  increment (N.min (N.of_nat a) (2 ^ 53)) = N.min (N.of_nat (S a)) (2 ^ 53).
Proof. unfold increment. case_decide; lia. Qed.

Lemma Inv2_dispatch message env s :
  Inv s → Inv2 s → is_Some (worker s) → Inv2 (dispatch message env s).2.
Proof.
  intros HI [] [w Hw].
  assert (∀ h t,
    <[allocated s :=
        {| timer_id := request_id (increment (requestIdCounter s))
                         (date_now env);
           timer_delay := TIMEOUT_MS; timer_set := clock s;
           timer_status := Armed |}]> (timers s) !! h = Some t →
    ∃ z, timer_id t = request_id (N.min (N.of_nat (S h)) (2 ^ 53)) z) as Hid.
  { intros h t. destruct (decide (allocated s = h)) as [<-|Hne].
    - rewrite lookup_insert_eq. intros [= <-]. simpl.
      rewrite inv2_counter0, increment_counter. eauto.
    - rewrite lookup_insert_ne by done. eauto. }
  assert (∀ h t, h ∈ (invoked s).*1 →
    <[allocated s :=
        {| timer_id := request_id (increment (requestIdCounter s))
                         (date_now env);
           timer_delay := TIMEOUT_MS; timer_set := clock s;
           timer_status := Armed |}]> (timers s) !! h = Some t →
    timer_status t ≠ Armed) as Hinv.
  { intros h t Hin. rewrite lookup_insert_ne; [eauto|].
    intros <-. apply (inv_invoked_lt s HI) in Hin. lia. }
  rewrite Hw in *.
  unfold dispatch. destruct (post_message env); split; simpl;
    rewrite ?Hw; try done;
    try (by rewrite inv2_counter0, increment_counter).
  - intros h Hh.
    rewrite lookup_alter_is_Some, !lookup_insert_is_Some'.
    destruct (decide (allocated s = h)); [auto|].
    destruct (inv2_allocated0 h); [lia | auto].
  - intros h Hh. rewrite !lookup_insert_is_Some'.
    destruct (decide (allocated s = h)); [auto|].
    destruct (inv2_allocated0 h); [lia | auto].
Qed.

Lemma Inv2_terminate s : Inv2 s → Inv2 (terminateWorker s).
Proof.
  intros HI. unfold terminateWorker. destruct (worker s) as [w|] eqn:Hw; [|done].
  destruct HI. rewrite Hw in *. split; simpl; try done.
  - rewrite length_app. simpl. rewrite Nat.add_1_r, seq_S.
    rewrite <-inv2_terminated0. simpl. by rewrite (inv2_worker0 w).
  - rewrite length_app. simpl. lia.
Qed.

Lemma Inv2_step ev s s' : Inv s → Inv2 s → step ev s = Some s' → Inv2 s'.
Proof.
  intros HI HI2. destruct ev; simpl.
  - intros [= <-]. unfold generatePathAsync.
    pose proof (Inv_initWorker env s HI) as HI'.
    pose proof (Inv2_initWorker env s HI2) as HI2'.
    pose proof (initWorker_worker env s) as Hw.
    destruct (initWorker env s) as [[w|] s1]; simpl in *; [|done].
    apply Inv2_dispatch; [done | done | by rewrite Hw].
  - intros [= <-]. unfold generatePerCornerPathAsync.
    pose proof (Inv_initWorker env s HI) as HI'.
    pose proof (Inv2_initWorker env s HI2) as HI2'.
    pose proof (initWorker_worker env s) as Hw.
    destruct (initWorker env s) as [[w|] s1]; simpl in *; [|done].
    apply Inv2_dispatch; [done | done | by rewrite Hw].
  - destruct (worker s); [|done]. destruct (mailbox s); [done|].
    intros [= <-]. apply Inv2_onmessage. by destruct HI2.
  - destruct (worker s); [|done]. intros [= <-]. by apply Inv2_onmessage.
  - destruct (worker s); [|done]. intros [= <-]. by apply Inv2_onerror.
  - destruct (timers s !! h) as [t|] eqn:Ht; [|done].
    destruct (timer_status t); try done. destruct (due t (clock s)); [|done].
    intros [= <-]. by apply Inv2_timeout.
  - intros [= <-]. by destruct HI2.
  - intros [= <-]. by apply Inv2_terminate.
Qed.

Lemma reachable_Inv2 s : reachable s → Inv2 s.
Proof.
  induction 1 as [|s ev s' Hs IH Hstep]; [apply Inv2_initial|].
  eapply Inv2_step; [by apply reachable_Inv | done | done].
Qed.

(** X1: No promise hangs: a pending promise has an armed timer of 10,000 ms,
    and once that time has passed the timer can fire, which rejects the
    promise with the timeout error. *)
Theorem pending_promise_times_out s h d :
  reachable s → promises s !! h = Some Pending →
  ∃ t, timers s !! h = Some t ∧ timer_status t = Armed
       ∧ timer_delay t = 10000%N
       ∧ ((timer_set t + 10000 ≤ clock s + d)%N →
          ∃ s2, run [TimePasses d; TimerFires h] s = Some s2
                ∧ promises s2 !! h
                  = Some (Settled (Rejected
                             (ErrorObject "Path generation timeout")))).
Proof.
  intros Hs Hp. pose proof (reachable_Inv s Hs) as HI.
  destruct (inv_pending s HI h Hp) as (t & Ht & Hst).
  pose proof (inv_delay s HI h t Ht) as Hd.
  exists t. split_and!; try done.
  intros Hdue. simpl. rewrite Ht, Hst. unfold due. simpl.
  rewrite Hd. unfold TIMEOUT_MS.
  rewrite (proj2 (N.leb_le _ _) Hdue). simpl.
  eexists. split; [done|]. simpl. by rewrite lookup_alter_eq, Hp.
Qed.

(** X2: [terminateWorker] does not cancel the timeouts: a posted request
    that it drops from the table is still pending afterwards, with its
    timer armed, so that timer later rejects it with the timeout error. *)
Theorem terminate_leaves_timeouts s id r d :
  reachable s → (id, r) ∈ pendingRequests s →
  is_Some (posted s !! handle r) →
  pendingRequests (terminateWorker s) = []
  ∧ promises (terminateWorker s) !! handle r = Some Pending
  ∧ ∃ t, timers (terminateWorker s) !! handle r = Some t
         ∧ timer_id t = id ∧ timer_status t = Armed
         ∧ ((timer_set t + 10000 ≤ clock s + d)%N →
            ∃ s2, run [Terminate; TimePasses d; TimerFires (handle r)] s
                  = Some s2
                  ∧ promises s2 !! handle r
                    = Some (Settled (Rejected
                               (ErrorObject "Path generation timeout")))).
Proof.
  intros Hs Hin Hposted. pose proof (reachable_Inv s Hs) as HI.
  pose proof (reachable_Inv2 s Hs) as HI2.
  destruct (inv_entry s HI id r Hin) as (t & Ht & Hid & Hst).
  pose proof (inv_posted s HI _ t Ht Hst Hposted) as Hp.
  pose proof (inv_delay s HI _ t Ht) as Hd.
  destruct (worker s) as [w|] eqn:Hw.
  2: { rewrite (inv2_no_worker s HI2 Hw) in Hin. by apply elem_of_nil in Hin. }
  assert (promises (terminateWorker s) = promises s
          ∧ timers (terminateWorker s) = timers s
          ∧ clock (terminateWorker s) = clock s
          ∧ pendingRequests (terminateWorker s) = []) as (Ep & Et & Ec & Epr).
  { unfold terminateWorker. by rewrite Hw. }
  split; [done|]. split; [by rewrite Ep|].
  exists t. rewrite Et. split_and!; try done.
  intros Hdue. cbn [run mbind option_bind step]. simpl.
  rewrite Et, Ht, Hst. unfold due. simpl. rewrite Ec, Hd. unfold TIMEOUT_MS.
  rewrite (proj2 (N.leb_le _ _) Hdue). simpl.
  eexists. split; [done|]. simpl. rewrite Ep.
  by rewrite lookup_alter_eq, Hp.
Qed.

(** X3: Below [2^53] requests, no two requests ever dispatched share an
    id. *)
Theorem request_ids_unique s h1 h2 t1 t2 :
  reachable s → (requestIdCounter s < 2 ^ 53)%N →
  timers s !! h1 = Some t1 → timers s !! h2 = Some t2 →
  timer_id t1 = timer_id t2 → h1 = h2.
Proof.
  intros Hs Hlt H1 H2 Heq.
  pose proof (reachable_Inv s Hs) as HI.
  pose proof (reachable_Inv2 s Hs) as HI2.
  destruct (inv2_timer_id s HI2 h1 t1 H1) as (z1 & E1).
  destruct (inv2_timer_id s HI2 h2 t2 H2) as (z2 & E2).
  rewrite E1, E2 in Heq. apply request_id_inj in Heq as [Heq _].
  rewrite (inv2_counter s HI2) in Hlt.
  assert (h1 < allocated s).
  { destruct (decide (h1 < allocated s)) as [|Hge]; [done|].
    rewrite (inv_timers_fresh s HI) in H1 by lia. done. }
  assert (h2 < allocated s).
  { destruct (decide (h2 < allocated s)) as [|Hge]; [done|].
    rewrite (inv_timers_fresh s HI) in H2 by lia. done. }
  lia.
Qed.

(** X4: The counter counts the requests dispatched so far, until it reaches
    [2^53], where [++requestIdCounter] no longer changes it; every
    request dispatched has a timer and a promise, and nothing else has. *)
Theorem counter_counts_requests s :
  reachable s →
  requestIdCounter s = N.min (N.of_nat (allocated s)) (2 ^ 53)
  ∧ ∀ h, h < allocated s
         ↔ is_Some (timers s !! h) ∧ is_Some (promises s !! h).
Proof.
  intros Hs. pose proof (reachable_Inv s Hs) as HI.
  pose proof (reachable_Inv2 s Hs) as HI2.
  split; [apply (inv2_counter s HI2)|].
  intros h. split; [apply (inv2_allocated s HI2)|].
  intros [[t Ht] _]. destruct (decide (h < allocated s)) as [|Hge]; [done|].
  rewrite (inv_timers_fresh s HI) in Ht by lia. done.
Qed.

(** X5: At most one worker is alive: every worker ever built is the live one
    or has been terminated, each terminated once; and without a worker
    nothing is registered and nothing is waiting in a mailbox. *)
Theorem workers_accounted s :
  reachable s →
  (∀ w, w < spawned s ↔ worker s = Some w ∨ w ∈ terminated s)
  ∧ NoDup (terminated s)
  ∧ (∀ w, worker s = Some w → w ∉ terminated s)
  ∧ spawned s ≤ attempts s
  ∧ (worker s = None → pendingRequests s = [] ∧ mailbox s = []).
Proof.
  intros Hs. pose proof (reachable_Inv s Hs) as HI.
  pose proof (reachable_Inv2 s Hs) as [].
  split_and!.
  - intros w. rewrite inv2_terminated0, elem_of_seq, inv2_spawned0.
    destruct (worker s) as [w'|] eqn:Hw.
    + specialize (inv2_worker0 w' eq_refl). split.
      * intros Hlt. destruct (decide (w = w')) as [->|]; [by left | right; lia].
      * intros [[= ->] | ?]; lia.
    + split; [intros ?; right; lia | intros [[=]|?]; lia].
  - rewrite inv2_terminated0. apply NoDup_seq.
  - intros w Hw. by apply (inv_worker s HI).
  - done.
  - intros Hw. split; [auto | by apply (inv_mailbox s HI)].
Qed.

(** X6: A timeout callback runs at most once, and never after a closure of
    its request has run: [clearTimeout] has disarmed the timer. *)
Theorem timeout_runs_at_most_once s h :
  reachable s →
  (h ∈ (invoked s).*1 → step (TimerFires h) s = None)
  ∧ (∀ s', step (TimerFires h) s = Some s' → step (TimerFires h) s' = None).
Proof.
  intros Hs. pose proof (reachable_Inv2 s Hs) as HI2. split.
  - intros Hin. simpl. destruct (timers s !! h) as [t|] eqn:Ht; [|done].
    pose proof (inv2_invoked s HI2 h t Hin Ht).
    by destruct (timer_status t).
  - intros s'. simpl. destruct (timers s !! h) as [t|] eqn:Ht; [|done].
    destruct (timer_status t); try done. destruct (due t (clock s)); [|done].
    intros [= <-]. simpl. by rewrite lookup_insert_eq.
Qed.

(** X7: The worker answers every message with a response that carries the
    message's id and exactly one of a path and an error text. *)
Theorem worker_response_shape m :
  resp_id (worker_onmessage m) = msg_id m
  ∧ (is_Some (resp_pathData (worker_onmessage m))
     ↔ resp_error (worker_onmessage m) = None).
Proof.
  split; [apply resp_id_worker_onmessage|].
  unfold worker_onmessage.
  destruct m; simpl; repeat (case_match; simpl); split;
    (done || by intros [] || by eexists).
Qed.

(** X8: A response that is delivered twice is handled once: the second
    delivery finds no entry and only logs the warning. *)
Theorem duplicate_response_only_warns s data :
  reachable s →
  client_onmessage data (client_onmessage data s)
  = console_warn
      ("Received response for unknown request ID: " +:+ resp_id data)
      (client_onmessage data s).
Proof.
  intros Hs. pose proof (reachable_Inv s Hs) as HI.
  assert (JsMap.get (resp_id data)
            (pendingRequests (client_onmessage data s)) = None) as Hgone.
  { rewrite pendingRequests_onmessage.
    destruct (JsMap.get (resp_id data) (pendingRequests s)) eqn:E; [|done].
    apply JsMap.get_delete_eq, (inv_keys s HI). }
  unfold client_onmessage at 1. by rewrite Hgone.
Qed.

(** X9: What the protocol does not carry: if the generator throws an [Error]
    with an empty message, the client takes the response for a success
    and resolves the promise with [undefined]; if it throws a value that
    is not an [Error], the promise is rejected with "Unknown error". *)
Theorem uncarried_failures width height exp s id h :
  JsMap.get id (pendingRequests s) = Some {| handle := h |} →
  promises s !! h = Some Pending →
  (generatePathSync width height exp = Throws (ErrorObject "") →
     promises
       (client_onmessage
          (worker_onmessage (GeneratePathSymmetric id width height exp)) s)
       !! h
     = Some (Settled (Fulfilled None)))
  ∧ (generatePathSync width height exp = Throws OtherValue →
     promises
       (client_onmessage
          (worker_onmessage (GeneratePathSymmetric id width height exp)) s)
       !! h
     = Some (Settled (Rejected (ErrorObject "Unknown error")))).
Proof.
  intros Hget Hp. unfold generatePathSync, client_onmessage, worker_onmessage.
  simpl. split; intros ->; simpl; rewrite Hget; simpl;
    by rewrite lookup_alter_eq, Hp.
Qed.

(** X10: The per-corner entry point, end to end on an idle worker: the call
    followed by the worker's reply settles the promise of the call with
    the completion of [generatePerCornerPathSync] on the same arguments,
    and the request's id is no longer in the table. *)
Theorem per_corner_round_trip width height corners env s :
  reachable s → mailbox s = [] →
  is_Some (initWorker env s).1 → post_message env = None →
  carried (generatePerCornerPathSync width height corners) →
  ∃ s2,
    run [CallAsymmetric width height corners env; WorkerReplies] s = Some s2
    ∧ promises s2 !! allocated s
      = Some (Settled (of_completion
                         (generatePerCornerPathSync width height corners)))
    ∧ JsMap.get (request_id (increment (requestIdCounter s)) (date_now env))
        (pendingRequests s2) = None
    ∧ mailbox s2 = [].
Proof.
  intros Hs Hmail Hsome Hpost Hc. pose proof (reachable_Inv s Hs) as HI.
  cbn [run mbind option_bind step]. unfold generatePerCornerPathAsync.
  pose proof (initWorker_frame env s)
    as (Ecnt & Ep & _ & Ea & _ & _ & Em & _).
  pose proof (initWorker_worker env s) as Hw.
  destruct (initWorker env s) as [[w|] s1]; simpl in *; [|by destruct Hsome].
  unfold dispatch. rewrite Hpost. simpl. rewrite Hw, Em, Hmail. simpl.
  eexists. split; [done|].
  assert (JsMap.get (request_id (increment (requestIdCounter s)) (date_now env))
            (JsMap.delete
               (request_id (increment (requestIdCounter s)) (date_now env))
               (JsMap.set
                  (request_id (increment (requestIdCounter s)) (date_now env))
                  {| handle := allocated s |} (pendingRequests s))) = None)
    as Hgone.
  { apply JsMap.get_delete_eq, JsMap.NoDup_keys_set, (inv_keys s HI). }
  unfold generatePerCornerPathSync in *.
  unfold client_onmessage, worker_onmessage. simpl.
  destruct (getPerCornerSuperellipsePath width height corners)
    as [pathData|[msg|]]; simpl in *; try done;
    rewrite JsMap.get_set_eq; simpl; rewrite ?decide_False by done; simpl;
    rewrite Ea, Ecnt, Ep, lookup_alter_eq, lookup_insert_eq; done.
Qed.

End Client.

(** C8: with the per-corner generator modelled from the spec, and for
    every exponent [e] that is a number equal to itself (not [NaN]),
    [generatePerCornerPathSync w h {e, e, e, e}] is
    [generatePathSync w h e]. *)
Theorem C8_uniform_corners symmetric stitched (w h e : number) :
  PrimFloat.eqb e e = true →
  generatePerCornerPathSync
    (getPerCornerSuperellipsePath_spec symmetric stitched) w h
    {| topLeft := e; topRight := e; bottomRight := e; bottomLeft := e |}
  = generatePathSync symmetric w h e.
Proof.
  intros He.
  unfold generatePerCornerPathSync, generatePathSync,
    getPerCornerSuperellipsePath_spec, uniform.
  simpl. by rewrite He.
Qed.

(** ** Concrete runs *)

Definition example_symmetric (width height exp : number)
    : Completion string :=
  Normal "M 0 -50 L 50 0 L 0 50 L -50 0 Z".

Definition example_per_corner (width height : number)
    (corners : CornerExponents) : Completion string :=
  Normal "M 0 -50 L 50 0 L 0 50 L -50 0 Z".

(** The host builds the worker and accepts the message. *)
Definition env_ok : CallEnv :=
  {| date_now := 1700000000000; worker_ctor := None; post_message := None |}.

(** [new Worker] throws. *)
Definition env_no_worker : CallEnv :=
  {| date_now := 1700000000000;
     worker_ctor := Some (ErrorObject "Worker is not defined");
     post_message := None |}.

(** [postMessage] throws. *)
Definition env_post_fails : CallEnv :=
  {| date_now := 1700000000000; worker_ctor := None;
     post_message := Some (ErrorObject "DataCloneError") |}.

(** After one call of [generatePathAsync(100, 100, 4)]. *)
Definition one_pending : State :=
  (generatePathAsync example_symmetric 100 100 4 env_ok initial).2.

(** After a second call, one millisecond of [Date.now()] later or not. *)
Definition two_pending : State :=
  (generatePerCornerPathAsync example_per_corner 100 100
     {| topLeft := 2; topRight := 4; bottomRight := 4; bottomLeft := 2 |}
     env_ok one_pending).2.

(** Ten seconds after the first call. *)
Definition ten_seconds_later : State :=
  set_clock (clock one_pending + 10000)%N one_pending.

(** After a call during which [new Worker] threw. *)
Definition after_failed_construction : State :=
  (generatePathAsync example_symmetric 100 100 4 env_no_worker initial).2.

Lemma reachable_one_pending :
  reachable example_symmetric example_per_corner one_pending.
Proof.
  apply (reachable_step _ _ initial (CallSymmetric 100 100 4 env_ok));
    [constructor | reflexivity].
Qed.

Lemma reachable_two_pending :
  reachable example_symmetric example_per_corner two_pending.
Proof.
  apply (reachable_step _ _ one_pending
           (CallAsymmetric 100 100
              {| topLeft := 2; topRight := 4; bottomRight := 4;
                 bottomLeft := 2 |} env_ok));
    [apply reachable_one_pending | reflexivity].
Qed.

Lemma reachable_ten_seconds_later :
  reachable example_symmetric example_per_corner ten_seconds_later.
Proof.
  apply (reachable_step _ _ one_pending (TimePasses 10000));
    [apply reachable_one_pending | reflexivity].
Qed.



(** C2 (as stated) fails: the first call finds that [new Worker] throws
    and is answered synchronously; the second call evaluates [new Worker]
    again (two attempts), gets a worker and is dispatched to it. *)
Lemma C2_counterexample :
  (generatePathAsync example_symmetric 100 100 4 env_no_worker initial).1
  = Done (Fulfilled (Some "M 0 -50 L 50 0 L 0 50 L -50 0 Z"))
  ∧ attempts after_failed_construction = 1
  ∧ worker after_failed_construction = None
  ∧ attempts
      (generatePathAsync example_symmetric 100 100 4 env_ok
         after_failed_construction).2 = 2
  ∧ worker
      (generatePathAsync example_symmetric 100 100 4 env_ok
         after_failed_construction).2 = Some 0
  ∧ (generatePathAsync example_symmetric 100 100 4 env_ok
       after_failed_construction).1 = Awaits 0.
Proof. split_and!; vm_compute; reflexivity. Qed.

Lemma C2_failed_construction_is_retried_witness :
  worker after_failed_construction = None
  ∧ attempts
      (generatePathAsync example_symmetric 100 100 4 env_ok
         after_failed_construction).2
    = S (attempts after_failed_construction)
  ∧ worker
      (generatePathAsync example_symmetric 100 100 4 env_ok
         after_failed_construction).2
    = Some (spawned after_failed_construction).
Proof.
  split; [reflexivity|].
  pose proof (C2_failed_construction_is_retried
                example_symmetric example_per_corner 100 100 4
                {| topLeft := 4; topRight := 4; bottomRight := 4;
                   bottomLeft := 4 |}
                env_ok after_failed_construction eq_refl)
    as (Ha & _ & _ & Hok).
  split; [exact Ha|]. exact (proj1 (Hok eq_refl)).
Defined.

Lemma C3_post_failure_rejects_witness :
  is_Some (initWorker env_post_fails initial).1
  ∧ post_message env_post_fails = Some (ErrorObject "DataCloneError")
  ∧ (generatePathAsync example_symmetric 100 100 4 env_post_fails initial).1
    = Awaits 0
  ∧ promises
      (generatePathAsync example_symmetric 100 100 4 env_post_fails
         initial).2 !! 0
    = Some (Settled (Rejected (ErrorObject "DataCloneError"))).
Proof.
  assert (is_Some (initWorker env_post_fails initial).1) as Hw
    by (exists 0; reflexivity).
  split; [exact Hw|]. split; [reflexivity|].
  pose proof (C3_post_failure_rejects example_symmetric 100 100 4
                env_post_fails initial (ErrorObject "DataCloneError")
                Hw eq_refl) as (H1 & H2 & _).
  split; [exact H1 | exact H2].
Defined.






Lemma C8_uniform_corners_witness :
  PrimFloat.eqb 4 4 = true
  ∧ generatePerCornerPathSync
      (getPerCornerSuperellipsePath_spec example_symmetric example_per_corner)
      100 100
      {| topLeft := 4; topRight := 4; bottomRight := 4; bottomLeft := 4 |}
    = generatePathSync example_symmetric 100 100 4.
Proof.
  split; [reflexivity|].
  exact (C8_uniform_corners example_symmetric example_per_corner 100 100 4
           eq_refl).
Defined.

Lemma C10_unknown_type_error_response_witness :
  msg_type (OtherMessage "PING" "req-7-0") ≠ GENERATE_PATH_SYMMETRIC
  ∧ msg_type (OtherMessage "PING" "req-7-0") ≠ GENERATE_PATH_ASYMMETRIC
  ∧ worker_onmessage example_symmetric example_per_corner
      (OtherMessage "PING" "req-7-0")
    = {| resp_id := "req-7-0"; resp_pathData := None;
         resp_error := Some "Unknown message type: PING" |}.
Proof.
  assert (msg_type (OtherMessage "PING" "req-7-0") ≠ GENERATE_PATH_SYMMETRIC)
    as H1 by discriminate.
  assert (msg_type (OtherMessage "PING" "req-7-0") ≠ GENERATE_PATH_ASYMMETRIC)
    as H2 by discriminate.
  split; [exact H1|]. split; [exact H2|].
  exact (C10_unknown_type_error_response example_symmetric example_per_corner
           (OtherMessage "PING" "req-7-0") H1 H2).
Defined.

(** ** [useHistory] *)

Lemma slice_last_n {T : Type} (m : Z) (l : list T) :
  (1 ≤ m)%Z → slice (- m) None l = drop (length l - Z.to_nat m) l.
Proof.
  intros Hm. unfold slice, relative_index. simpl.
  destruct (Z.ltb_spec (- m) 0); [|lia].
  rewrite take_ge by (rewrite length_drop; lia).
  f_equal. lia.
Qed.

Lemma slice_from_n {T : Type} (n : Z) (l : list T) :
  (0 ≤ n)%Z → slice n None l = drop (Z.to_nat n) l.
Proof.
  intros Hn. unfold slice, relative_index. simpl.
  destruct (Z.ltb_spec n 0); [lia|].
  rewrite take_ge by (rewrite length_drop; lia).
  destruct (decide (n ≤ Z.of_nat (length l))%Z).
  - f_equal. lia.
  - rewrite !drop_ge by lia. done.
Qed.

Lemma slice_but_last {T : Type} (l : list T) (x : T) :
  slice 0 (Some (-1)%Z) (l ++ [x]) = l.
Proof.
  unfold slice, relative_index. simpl. rewrite length_app. simpl.
  destruct (Z.ltb_spec 0 0); [lia|].
  rewrite Z.min_l by lia. simpl.
  replace (Z.to_nat (_ - _)) with (length l) by lia.
  change (Z.to_nat 0) with 0. rewrite drop_0. by rewrite take_app_length.
Qed.

Lemma lookup_last_snoc {T : Type} (l : list T) (x : T) :
  (l ++ [x]) !! (length (l ++ [x]) - 1) = Some x.
Proof.
  rewrite length_app. simpl. apply list_lookup_middle. lia.
Qed.

Lemma past_pushState {T : Type} (maxHistory : Z) (x : T)
    (h : History.HistoryState T) :
  (1 ≤ maxHistory)%Z →
  History.past (History.pushState maxHistory x h)
  = drop (length (History.past h) + 1 - Z.to_nat maxHistory)
      (History.past h ++ [History.present h]).
Proof.
  intros Hm. unfold History.pushState. simpl. rewrite length_app. simpl.
  destruct (Z.ltb_spec maxHistory
              (Z.of_nat (length (History.past h) + 1))).
  - rewrite slice_last_n by done. by rewrite length_app.
  - replace (_ - _) with 0 by lia. done.
Qed.

(** X11: With a limit of at least one, [pushState] keeps the most recent
    [maxHistory] snapshots (the old present being the newest), takes the
    new state as present and empties the redo stack. *)
Theorem pushState_keeps_latest {T : Type} (maxHistory : Z) (x : T)
    (h : History.HistoryState T) :
  (1 ≤ maxHistory)%Z →
  History.past (History.pushState maxHistory x h)
  = drop (length (History.past h) + 1 - Z.to_nat maxHistory)
      (History.past h ++ [History.present h])
  ∧ length (History.past (History.pushState maxHistory x h))
    = Nat.min (length (History.past h) + 1) (Z.to_nat maxHistory)
  ∧ History.present (History.pushState maxHistory x h) = x
  ∧ History.future (History.pushState maxHistory x h) = [].
Proof.
  intros Hm. pose proof (past_pushState maxHistory x h Hm) as E.
  split_and!; [done | | done | done].
  rewrite E, length_drop, length_app. cbn [length]. lia.
Qed.


(** X13: [undo] right after [pushState] gives back the present that was
    pushed over and offers the pushed state for [redo]. *)
Theorem undo_pushState {T : Type} (maxHistory : Z) (x : T)
    (h : History.HistoryState T) :
  (1 ≤ maxHistory)%Z →
  History.undo (History.pushState maxHistory x h)
  = {| History.past :=
         drop (length (History.past h) + 1 - Z.to_nat maxHistory)
           (History.past h);
       History.present := History.present h;
       History.future := [x] |}.
Proof.
  intros Hm. pose proof (past_pushState maxHistory x h Hm) as Ep.
  rewrite drop_app_le in Ep by lia.
  unfold History.undo. rewrite Ep.
  rewrite decide_False by (rewrite length_app; simpl; lia).
  by rewrite lookup_last_snoc, slice_but_last.
Qed.

Lemma undo_snoc {T : Type} (l : list T) (x p : T) (f : list T) :
  History.undo {| History.past := l ++ [x]; History.present := p;
                  History.future := f |}
  = {| History.past := l; History.present := x; History.future := p :: f |}.
Proof.
  unfold History.undo. simpl.
  rewrite decide_False by (rewrite length_app; simpl; lia).
  by rewrite lookup_last_snoc, slice_but_last.
Qed.

Lemma redo_cons {T : Type} (l : list T) (x p : T) (f : list T) :
  History.redo {| History.past := l; History.present := p;
                  History.future := x :: f |}
  = {| History.past := l ++ [p]; History.present := x; History.future := f |}.
Proof.
  unfold History.redo. simpl. by rewrite slice_from_n by lia.
Qed.

(** X14: [redo] undoes [undo] and [undo] undoes [redo], whenever the first of
    the two has something to do. *)
Theorem undo_redo_inverse {T : Type} (h : History.HistoryState T) :
  (History.past h ≠ [] → History.redo (History.undo h) = h)
  ∧ (History.future h ≠ [] → History.undo (History.redo h) = h).
Proof.
  destruct h as [l p f]. simpl. split.
  - destruct l as [|x l _] using rev_ind; [done|]. intros _.
    by rewrite undo_snoc, redo_cons.
  - destruct f as [|x f]; [done|]. intros _.
    by rewrite redo_cons, undo_snoc.
Qed.

(** X15: [undo] and [redo] move the present along one timeline and never
    change it: past, present and future, read in a row, stay the same. *)
Theorem undo_redo_keep_timeline {T : Type} (h : History.HistoryState T) :
  History.past (History.undo h) ++
    History.present (History.undo h) :: History.future (History.undo h)
  = History.past h ++ History.present h :: History.future h
  ∧ History.past (History.redo h) ++
      History.present (History.redo h) :: History.future (History.redo h)
    = History.past h ++ History.present h :: History.future h.
Proof.
  destruct h as [l p f]. split.
  - destruct l as [|x l _] using rev_ind; [done|].
    rewrite undo_snoc. simpl. by rewrite <-(assoc_L (++)).
  - destruct f as [|x f]; [done|].
    rewrite redo_cons. simpl. by rewrite <-(assoc_L (++)).
Qed.

Lemma call_bounded {T : Type} (maxHistory : Z) (c : History.Call T)
    (h : History.HistoryState T) :
  (1 ≤ maxHistory)%Z →
  length (History.past h) + length (History.future h) ≤ Z.to_nat maxHistory →
  length (History.past (History.call maxHistory c h))
  + length (History.future (History.call maxHistory c h))
  ≤ Z.to_nat maxHistory.
Proof.
  intros Hm Hb. destruct c; cbn [History.call].
  - rewrite past_pushState by done. rewrite length_drop, length_app. simpl. lia.
  - destruct h as [l p f]. destruct l as [|x l _] using rev_ind; [done|].
    rewrite undo_snoc. simpl in *. rewrite length_app in Hb. simpl in Hb. lia.
  - destruct h as [l p f]. destruct f as [|x f]; [done|].
    rewrite redo_cons. simpl in *. rewrite length_app. simpl. lia.
  - simpl. lia.
  - simpl. lia.
  - done.
Qed.

(** X16: With a limit of at least one, no sequence of calls on the hook makes
    the two stacks together hold more than [maxHistory] snapshots;
    [redo], which pushes onto the undo stack without looking at the limit,
    included. *)
Theorem history_bounded {T : Type} (maxHistory : Z) (initialState : T)
    (cs : list (History.Call T)) :
  (1 ≤ maxHistory)%Z →
  length (History.past
            (History.calls maxHistory cs (History.initial initialState)))
  + length (History.future
              (History.calls maxHistory cs (History.initial initialState)))
  ≤ Z.to_nat maxHistory.
Proof.
  intros Hm. unfold History.calls.
  assert (length (History.past (History.initial initialState))
          + length (History.future (History.initial initialState))
          ≤ Z.to_nat maxHistory) as Hb by (simpl; lia).
  revert Hb. generalize (History.initial initialState).
  induction cs as [|c cs IH]; intros h Hb; [done|].
  simpl. apply IH. by apply call_bounded.
Qed.

(** X19: the [keydown] listener of [useHistoryKeyboardShortcuts] calls at
    most one of [onUndo] and [onRedo] per event, after [preventDefault]:
    [onUndo] exactly for z with Ctrl or Meta and without Shift, [onRedo]
    exactly for z with Ctrl or Meta and Shift or for y with Ctrl or Meta
    and without Shift. Key names are compared as they are, so an event
    whose key is the capital Z or Y calls nothing. *)
Theorem shortcut_calls_one_handler (e : KeyboardEvent) :
  (handleKeyDown e = [PreventDefault; OnUndo]
   ∧ (ctrlKey e || metaKey e) = true ∧ key e = "z" ∧ shiftKey e = false)
  ∨ (handleKeyDown e = [PreventDefault; OnRedo]
     ∧ (ctrlKey e || metaKey e) = true
     ∧ (key e = "z" ∧ shiftKey e = true ∨ key e = "y" ∧ shiftKey e = false))
  ∨ (handleKeyDown e = []
     ∧ ((ctrlKey e || metaKey e) = false
        ∨ (key e ≠ "z" ∧ key e ≠ "y")
        ∨ (key e = "y" ∧ shiftKey e = true))).
Proof.
  unfold handleKeyDown.
  destruct (ctrlKey e || metaKey e); simpl; [|right; right; auto].
  destruct (decide (key e = "z")) as [Hz|Hz].
  - rewrite Hz. simpl. destruct (shiftKey e); simpl.
    + right; left. auto.
    + left. auto.
  - rewrite (bool_decide_eq_false_2 _ Hz). simpl.
    destruct (decide (key e = "y")) as [Hy|Hy].
    + rewrite Hy. simpl. destruct (shiftKey e); simpl.
      * right; right. auto.
      * right; left. auto.
    + rewrite (bool_decide_eq_false_2 _ Hy). simpl. right; right. auto.
Qed.

(** ** [shapeDefaults] *)

Lemma get_spread k target source :
  NoDup (JsMap.keys source) →
  JsMap.get k (spread target source)
  = match JsMap.get k source with
    | Some v => Some v
    | None => JsMap.get k target
    end.
Proof.
  unfold spread. revert target.
  induction source as [|[k0 v0] source IH]; intros target Hnd; [done|].
  simpl in *. apply NoDup_cons in Hnd as [Hk0 Hnd]. rewrite IH by done.
  case_decide; subst.
  - apply JsMap.get_None_keys in Hk0. rewrite Hk0. apply JsMap.get_set_eq.
  - destruct (JsMap.get k source); [done|]. by apply JsMap.get_set_ne.
Qed.

Lemma spread_nil_defaults : spread [] DEFAULT_SHAPE_CONTENT = DEFAULT_SHAPE_CONTENT.
Proof. vm_compute. reflexivity. Qed.

Lemma get_createShapeContent k overrides :
  NoDup (JsMap.keys overrides) →
  JsMap.get k (createShapeContent (Some overrides))
  = match JsMap.get k overrides with
    | Some v => Some v
    | None => JsMap.get k DEFAULT_SHAPE_CONTENT
    end.
Proof.
  intros Hnd. unfold createShapeContent.
  change (default [] (Some overrides)) with overrides.
  by rewrite get_spread, spread_nil_defaults.
Qed.

(** X17: In the content that [createShapeContent] builds, a property given in
    the overrides has the overriding value, also when that value is
    [undefined], and every other property has its default; so all the
    default properties are there. *)
Theorem createShapeContent_overrides_win k overrides :
  NoDup (JsMap.keys overrides) →
  JsMap.get k (createShapeContent (Some overrides))
  = match JsMap.get k overrides with
    | Some v => Some v
    | None => JsMap.get k DEFAULT_SHAPE_CONTENT
    end
  ∧ (is_Some (JsMap.get k DEFAULT_SHAPE_CONTENT) →
     is_Some (JsMap.get k (createShapeContent (Some overrides)))).
Proof.
  intros Hnd. rewrite get_createShapeContent by done. split; [done|].
  by destruct (JsMap.get k overrides).
Qed.

(** X18: A content built by [createShapeContent] passes
    [isValidShapeContent] exactly when the overrides leave [type] alone or
    set it to 'superellipse' and leave [width], [height] and [exp] alone
    or set them to numbers; an override that is present with the value
    [undefined] makes the content invalid. *)
Theorem created_content_validity overrides :
  NoDup (JsMap.keys overrides) →
  isValidShapeContent (VObject (createShapeContent (Some overrides)))
  = VBool
      (from_option is_superellipse true (JsMap.get "type" overrides)
       && from_option is_number true (JsMap.get "width" overrides)
       && from_option is_number true (JsMap.get "height" overrides)
       && from_option is_number true (JsMap.get "exp" overrides)).
Proof.
  intros Hnd. unfold isValidShapeContent, get_prop. cbn [truthy_value].
  rewrite !get_createShapeContent by done.
  by destruct (JsMap.get "type" overrides), (JsMap.get "width" overrides),
    (JsMap.get "height" overrides), (JsMap.get "exp" overrides).
Qed.

(** ** Concrete instances of the further properties *)

(** A generator that throws an [Error] without message. *)
Definition example_failing (width height exp : number) : Completion string :=
  Throws (ErrorObject "").

Lemma pending_promise_times_out_witness :
  reachable example_symmetric example_per_corner one_pending
  ∧ promises one_pending !! 0 = Some Pending
  ∧ ∃ t, timers one_pending !! 0 = Some t ∧ timer_status t = Armed
         ∧ timer_delay t = 10000%N
         ∧ ((timer_set t + 10000 ≤ clock one_pending + 10000)%N →
            ∃ s2, run example_symmetric example_per_corner
                    [TimePasses 10000; TimerFires 0] one_pending = Some s2
                  ∧ promises s2 !! 0
                    = Some (Settled (Rejected
                               (ErrorObject "Path generation timeout")))).
Proof.
  assert (promises one_pending !! 0 = Some Pending) as Hp
    by (vm_compute; reflexivity).
  split; [apply reachable_one_pending|]. split; [exact Hp|].
  exact (pending_promise_times_out example_symmetric example_per_corner
           one_pending 0 10000 reachable_one_pending Hp).
Defined.

Lemma in_one_pending :
  ("req-1-1700000000000", {| handle := 0 |}) ∈ pendingRequests one_pending.
Proof. vm_compute. apply list_elem_of_here. Qed.

Lemma terminate_leaves_timeouts_witness :
  reachable example_symmetric example_per_corner one_pending
  ∧ ("req-1-1700000000000", {| handle := 0 |}) ∈ pendingRequests one_pending
  ∧ is_Some (posted one_pending !! 0)
  ∧ pendingRequests (terminateWorker one_pending) = []
  ∧ promises (terminateWorker one_pending) !! 0 = Some Pending.
Proof.
  assert (is_Some (posted one_pending !! 0)) as Hp
    by (vm_compute; eexists; reflexivity).
  split; [apply reachable_one_pending|]. split; [apply in_one_pending|].
  split; [exact Hp|].
  destruct (terminate_leaves_timeouts example_symmetric example_per_corner
              one_pending "req-1-1700000000000" {| handle := 0 |} 10000
              reachable_one_pending in_one_pending Hp) as (H1 & H2 & _).
  split; [exact H1 | exact H2].
Defined.

Lemma request_ids_unique_witness :
  reachable example_symmetric example_per_corner two_pending
  ∧ (requestIdCounter two_pending < 2 ^ 53)%N
  ∧ timers two_pending !! 1
    = Some {| timer_id := "req-2-1700000000000"; timer_delay := 10000;
              timer_set := 0; timer_status := Armed |}
  ∧ 1 = 1.
Proof.
  assert (timers two_pending !! 1
          = Some {| timer_id := "req-2-1700000000000"; timer_delay := 10000;
                    timer_set := 0; timer_status := Armed |}) as Ht
    by (vm_compute; reflexivity).
  assert (requestIdCounter two_pending < 2 ^ 53)%N as Hlt
    by (vm_compute; reflexivity).
  split; [apply reachable_two_pending|]. split; [exact Hlt|].
  split; [exact Ht|].
  exact (request_ids_unique example_symmetric example_per_corner two_pending
           1 1 _ _ reachable_two_pending Hlt Ht Ht eq_refl).
Defined.

Lemma counter_counts_requests_witness :
  reachable example_symmetric example_per_corner two_pending
  ∧ requestIdCounter two_pending
    = N.min (N.of_nat (allocated two_pending)) (2 ^ 53).
Proof.
  split; [apply reachable_two_pending|].
  exact (proj1 (counter_counts_requests example_symmetric example_per_corner
                  two_pending reachable_two_pending)).
Defined.

Lemma workers_accounted_witness :
  reachable example_symmetric example_per_corner two_pending
  ∧ NoDup (terminated two_pending)
  ∧ spawned two_pending ≤ attempts two_pending.
Proof.
  split; [apply reachable_two_pending|].
  destruct (workers_accounted example_symmetric example_per_corner
              two_pending reachable_two_pending) as (_ & H1 & _ & H2 & _).
  split; [exact H1 | exact H2].
Defined.

Lemma timeout_runs_at_most_once_witness :
  reachable example_symmetric example_per_corner ten_seconds_later
  ∧ ∀ s',
      step example_symmetric example_per_corner (TimerFires 0)
        ten_seconds_later = Some s' →
      step example_symmetric example_per_corner (TimerFires 0) s' = None.
Proof.
  split; [apply reachable_ten_seconds_later|].
  exact (proj2 (timeout_runs_at_most_once example_symmetric
                  example_per_corner ten_seconds_later 0
                  reachable_ten_seconds_later)).
Defined.

Lemma duplicate_response_only_warns_witness :
  reachable example_symmetric example_per_corner one_pending
  ∧ client_onmessage
      {| resp_id := "req-1-1700000000000"; resp_pathData := Some "M 0 0 Z";
         resp_error := None |}
      (client_onmessage
         {| resp_id := "req-1-1700000000000"; resp_pathData := Some "M 0 0 Z";
            resp_error := None |} one_pending)
    = console_warn
        ("Received response for unknown request ID: " +:+
         "req-1-1700000000000")
        (client_onmessage
           {| resp_id := "req-1-1700000000000";
              resp_pathData := Some "M 0 0 Z"; resp_error := None |}
           one_pending).
Proof.
  split; [apply reachable_one_pending|].
  exact (duplicate_response_only_warns example_symmetric example_per_corner
           one_pending
           {| resp_id := "req-1-1700000000000";
              resp_pathData := Some "M 0 0 Z"; resp_error := None |}
           reachable_one_pending).
Defined.

Lemma uncarried_failures_witness :
  JsMap.get "req-1-1700000000000" (pendingRequests one_pending)
  = Some {| handle := 0 |}
  ∧ promises one_pending !! 0 = Some Pending
  ∧ generatePathSync example_failing 100 100 4 = Throws (ErrorObject "")
  ∧ promises
      (client_onmessage
         (worker_onmessage example_failing example_per_corner
            (GeneratePathSymmetric "req-1-1700000000000" 100 100 4))
         one_pending) !! 0
    = Some (Settled (Fulfilled None)).
Proof.
  assert (JsMap.get "req-1-1700000000000" (pendingRequests one_pending)
          = Some {| handle := 0 |}) as Hg by (vm_compute; reflexivity).
  assert (promises one_pending !! 0 = Some Pending) as Hp
    by (vm_compute; reflexivity).
  split; [exact Hg|]. split; [exact Hp|]. split; [reflexivity|].
  exact (proj1 (uncarried_failures example_failing example_per_corner
                  100 100 4 one_pending "req-1-1700000000000" 0 Hg Hp)
           eq_refl).
Defined.

Lemma per_corner_round_trip_witness :
  reachable example_symmetric example_per_corner initial
  ∧ mailbox initial = []
  ∧ is_Some (initWorker env_ok initial).1
  ∧ post_message env_ok = None
  ∧ carried
      (generatePerCornerPathSync example_per_corner 100 100
         {| topLeft := 2; topRight := 4; bottomRight := 4; bottomLeft := 2 |})
  ∧ ∃ s2,
      run example_symmetric example_per_corner
        [CallAsymmetric 100 100
           {| topLeft := 2; topRight := 4; bottomRight := 4;
              bottomLeft := 2 |} env_ok;
         WorkerReplies] initial = Some s2
      ∧ promises s2 !! allocated initial
        = Some (Settled
                  (of_completion
                     (generatePerCornerPathSync example_per_corner 100 100
                        {| topLeft := 2; topRight := 4; bottomRight := 4;
                           bottomLeft := 2 |})))
      ∧ JsMap.get
          (request_id (increment (requestIdCounter initial))
             (date_now env_ok)) (pendingRequests s2) = None
      ∧ mailbox s2 = [].
Proof.
  assert (is_Some (initWorker env_ok initial).1) as Hw
    by (exists 0; reflexivity).
  split; [constructor|]. split; [reflexivity|]. split; [exact Hw|].
  split; [reflexivity|]. split; [exact I|].
  exact (per_corner_round_trip example_symmetric example_per_corner 100 100
           {| topLeft := 2; topRight := 4; bottomRight := 4; bottomLeft := 2 |}
           env_ok initial (reachable_initial _ _) eq_refl Hw eq_refl I).
Defined.

Lemma pushState_keeps_latest_witness :
  (1 ≤ 2)%Z
  ∧ History.past
      (History.pushState 2 40
         {| History.past := [10; 20]; History.present := 30;
            History.future := [50] |})
    = [20; 30].
Proof.
  assert (1 ≤ 2)%Z as Hm by lia. split; [exact Hm|].
  exact (proj1 (pushState_keeps_latest 2 40
                  {| History.past := [10; 20]; History.present := 30;
                     History.future := [50] |} Hm)).
Defined.


Lemma undo_pushState_witness :
  (1 ≤ 50)%Z
  ∧ History.undo
      (History.pushState 50 40
         {| History.past := [10; 20]; History.present := 30;
            History.future := [] |})
    = {| History.past := [10; 20]; History.present := 30;
         History.future := [40] |}.
Proof.
  assert (1 ≤ 50)%Z as Hm by lia. split; [exact Hm|].
  exact (undo_pushState 50 40
           {| History.past := [10; 20]; History.present := 30;
              History.future := [] |} Hm).
Defined.

Lemma undo_redo_inverse_witness :
  History.redo
    (History.undo
       {| History.past := [10; 20]; History.present := 30;
          History.future := [40] |})
  = {| History.past := [10; 20]; History.present := 30;
       History.future := [40] |}
  ∧ History.undo
      (History.redo
         {| History.past := [10; 20]; History.present := 30;
            History.future := [40] |})
    = {| History.past := [10; 20]; History.present := 30;
         History.future := [40] |}.
Proof.
  destruct (undo_redo_inverse
              {| History.past := [10; 20]; History.present := 30;
                 History.future := [40] |}) as [H1 H2].
  split; [apply H1 | apply H2]; discriminate.
Defined.

Lemma history_bounded_witness :
  (1 ≤ 2)%Z
  ∧ length
      (History.past
         (History.calls 2
            [History.PushState 1; History.PushState 2; History.PushState 3;
             History.Undo; History.Undo; History.Redo]
            (History.initial 0)))
    + length
        (History.future
           (History.calls 2
              [History.PushState 1; History.PushState 2;
               History.PushState 3; History.Undo; History.Undo;
               History.Redo]
              (History.initial 0)))
    ≤ Z.to_nat 2.
Proof.
  assert (1 ≤ 2)%Z as Hm by lia. split; [exact Hm|].
  exact (history_bounded 2 0
           [History.PushState 1; History.PushState 2; History.PushState 3;
            History.Undo; History.Undo; History.Redo] Hm).
Defined.

Lemma NoDup_example_overrides :
  NoDup (JsMap.keys [("width", VNumber 200); ("solidColor", VUndefined)]).
Proof.
  apply (bool_decide_unpack _). vm_compute. exact I.
Qed.

Lemma createShapeContent_overrides_win_witness :
  NoDup (JsMap.keys [("width", VNumber 200); ("solidColor", VUndefined)])
  ∧ JsMap.get "solidColor"
      (createShapeContent
         (Some [("width", VNumber 200); ("solidColor", VUndefined)]))
    = Some VUndefined.
Proof.
  split; [apply NoDup_example_overrides|].
  exact (proj1 (createShapeContent_overrides_win "solidColor"
                  [("width", VNumber 200); ("solidColor", VUndefined)]
                  NoDup_example_overrides)).
Defined.

Lemma created_content_validity_witness :
  NoDup (JsMap.keys [("width", VNumber 200); ("solidColor", VUndefined)])
  ∧ isValidShapeContent
      (VObject
         (createShapeContent
            (Some [("width", VNumber 200); ("solidColor", VUndefined)])))
    = VBool true.
Proof.
  split; [apply NoDup_example_overrides|].
  exact (created_content_validity
           [("width", VNumber 200); ("solidColor", VUndefined)]
           NoDup_example_overrides).
Defined.
